(** * HypoxRayMarcher: ray/primitive intersection, VPL shading and the render loop

    A shallow embedding of [src/sources/geometry.cpp] and
    [src/sources/HypoxRayTracer.cpp].

    The C++ code computes on [float].  The embedding is written once, over an
    arithmetic interface [Scalar]; it is then read in two ways:
    - [binary32]: IEEE 754 single precision, built from the Standard Library's
      executable [SpecFloat] operations (24-bit mantissa, [emax = 128]).  This
      is the arithmetic the program runs on; infinities, NaN and signed zeros
      behave as on the machine.
    - [exact]: the real numbers, used only for statements that are about
      exact geometry (length one of a normalised vector). *)

From Stdlib Require Import ZArith List Bool Lia Permutation.
From Stdlib Require Import Reals Lra Psatz.
From Stdlib Require Import Floats.SpecFloat.
Import ListNotations.

Set Implicit Arguments.

(** ** Arithmetic interface *)

Class Scalar : Type := {
  F : Type;
  (** conversion of an integer value ([int] literals, [size_t],
      [static_cast<float>]) *)
  of_int : Z -> F;
  (** the literal [0.01] once converted to the scalar type *)
  lit_0_01 : F;
  add : F -> F -> F;
  sub : F -> F -> F;
  mul : F -> F -> F;
  div : F -> F -> F;
  opp : F -> F;
  (** [std::abs] and [sqrtf] *)
  fabs : F -> F;
  fsqrt : F -> F;
  (** [a < b] and [a <= b] *)
  ltb : F -> F -> bool;
  leb : F -> F -> bool
}.

Declare Scope fl_scope.
Delimit Scope fl_scope with fl.
Bind Scope fl_scope with F.

Notation "a + b" := (add a b) : fl_scope.
Notation "a - b" := (sub a b) : fl_scope.
Notation "a * b" := (mul a b) : fl_scope.
Notation "a / b" := (div a b) : fl_scope.
Notation "- a" := (opp a) : fl_scope.
Notation "a <? b" := (ltb a b) : fl_scope.
Notation "a <=? b" := (leb a b) : fl_scope.
Notation "a >? b" := (ltb b a) : fl_scope.
Notation "a >=? b" := (leb b a) : fl_scope.

(** ** Vectors and matrices (the Eigen operations the program calls)

    Eigen is a library outside the repository; its operations are written
    by their documented meaning.  A sum of products is written from left to
    right; compiled code may associate or fuse it differently, which moves a
    single-precision result by a rounding error.  The statements below are
    either about every arithmetic, or about exact arithmetic, or about
    single-precision data on which every operation is exact. *)

Section Linear.
Context {Num : Scalar}.
Local Open Scope fl_scope.

Definition i0 : F := of_int 0.
Definition i1 : F := of_int 1.
Definition i2 : F := of_int 2.
Definition i4 : F := of_int 4.

(** [std::min(a, b)] is [(b < a) ? b : a]; [std::max(a, b)] is
    [(a < b) ? b : a]. *)
Definition fmin (a b : F) : F := if b <? a then b else a.
Definition fmax (a b : F) : F := if a <? b then b else a.

Record Vec3 : Type := mkVec3 { vx : F; vy : F; vz : F }.
Record Vec4 : Type := mkVec4 { wx : F; wy : F; wz : F; ww : F }.

Definition vadd (a b : Vec3) : Vec3 :=
  mkVec3 (vx a + vx b) (vy a + vy b) (vz a + vz b).
Definition vsub (a b : Vec3) : Vec3 :=
  mkVec3 (vx a - vx b) (vy a - vy b) (vz a - vz b).
Definition vopp (a : Vec3) : Vec3 :=
  mkVec3 (- vx a) (- vy a) (- vz a).
(** [k * v] and [v * k] *)
Definition smul (k : F) (a : Vec3) : Vec3 :=
  mkVec3 (k * vx a) (k * vy a) (k * vz a).
Definition vmuls (a : Vec3) (k : F) : Vec3 :=
  mkVec3 (vx a * k) (vy a * k) (vz a * k).
(** [v / k] *)
Definition vdivs (a : Vec3) (k : F) : Vec3 :=
  mkVec3 (vx a / k) (vy a / k) (vz a / k).
Definition cwiseProduct (a b : Vec3) : Vec3 :=
  mkVec3 (vx a * vx b) (vy a * vy b) (vz a * vz b).
Definition dot (a b : Vec3) : F :=
  vx a * vx b + vy a * vy b + vz a * vz b.
Definition cross (a b : Vec3) : Vec3 :=
  mkVec3 (vy a * vz b - vz a * vy b)
         (vz a * vx b - vx a * vz b)
         (vx a * vy b - vy a * vx b).
Definition squaredNorm (a : Vec3) : F := dot a a.
Definition norm (a : Vec3) : F := fsqrt (squaredNorm a).
(** Eigen's [normalized()] (version 3.3 and later): the vector divided by
    its norm when the squared norm is positive, the vector itself
    otherwise. *)
Definition normalized (a : Vec3) : Vec3 :=
  let z := squaredNorm a in
  if z >? i0 then vdivs a (fsqrt z) else a.

Definition vzero : Vec3 := mkVec3 i0 i0 i0.

(** Fixed-size matrices, read by coefficient: [m i j] is row [i],
    column [j]. *)
Definition Mat : Type := nat -> nat -> F.

(** The comma initialiser [M << a, b, c, ...] fills row by row. *)
Definition mat_of_rows (rows : list (list F)) : Mat :=
  fun i j => nth j (nth i rows []) i0.

Definition mat4_mul (a b : Mat) : Mat :=
  fun i j => a i 0%nat * b 0%nat j + a i 1%nat * b 1%nat j
             + a i 2%nat * b 2%nat j + a i 3%nat * b 3%nat j.

Definition mat4_mulv (a : Mat) (v : Vec4) : Vec4 :=
  let row i := a i 0%nat * wx v + a i 1%nat * wy v
               + a i 2%nat * wz v + a i 3%nat * ww v in
  mkVec4 (row 0%nat) (row 1%nat) (row 2%nat) (row 3%nat).

Definition mat3_mulv (a : Mat) (v : Vec3) : Vec3 :=
  let row i := a i 0%nat * vx v + a i 1%nat * vy v + a i 2%nat * vz v in
  mkVec3 (row 0%nat) (row 1%nat) (row 2%nat).

Definition transpose (a : Mat) : Mat := fun i j => a j i.

(** Eigen's closed-form inverse of a 3x3 matrix: cofactors with cyclic
    indices, scaled by the reciprocal of the determinant. *)
Definition cofactor_3x3 (m : Mat) (i j : nat) : F :=
  let i1 := ((i + 1) mod 3)%nat in
  let i2 := ((i + 2) mod 3)%nat in
  let j1 := ((j + 1) mod 3)%nat in
  let j2 := ((j + 2) mod 3)%nat in
  m i1 j1 * m i2 j2 - m i1 j2 * m i2 j1.

Definition det3 (m : Mat) : F :=
  cofactor_3x3 m 0 0 * m 0%nat 0%nat
  + cofactor_3x3 m 1 0 * m 1%nat 0%nat
  + cofactor_3x3 m 2 0 * m 2%nat 0%nat.

Definition inverse3 (m : Mat) : Mat :=
  let invdet := i1 / det3 m in
  fun i j => cofactor_3x3 m j i * invdet.

(** Eigen's closed-form inverse of a 4x4 matrix: signed cofactors, then
    a division by the determinant taken along the first row. *)
Definition general_det3_helper (m : Mat) (a1 a2 a3 b1 b2 b3 : nat) : F :=
  m a1 b1 * (m a2 b2 * m a3 b3 - m a2 b3 * m a3 b2).

Definition cofactor_4x4 (m : Mat) (i j : nat) : F :=
  let a1 := ((i + 1) mod 4)%nat in
  let a2 := ((i + 2) mod 4)%nat in
  let a3 := ((i + 3) mod 4)%nat in
  let b1 := ((j + 1) mod 4)%nat in
  let b2 := ((j + 2) mod 4)%nat in
  let b3 := ((j + 3) mod 4)%nat in
  general_det3_helper m a1 a2 a3 b1 b2 b3
  + general_det3_helper m a2 a3 a1 b1 b2 b3
  + general_det3_helper m a3 a1 a2 b1 b2 b3.

Definition adjugate4 (m : Mat) : Mat :=
  fun i j => if Nat.even (i + j) then cofactor_4x4 m j i
             else - cofactor_4x4 m j i.

Definition det4 (m : Mat) : F :=
  let r := adjugate4 m in
  r 0%nat 0%nat * m 0%nat 0%nat + r 1%nat 0%nat * m 0%nat 1%nat
  + r 2%nat 0%nat * m 0%nat 2%nat + r 3%nat 0%nat * m 0%nat 3%nat.

Definition inverse4 (m : Mat) : Mat :=
  let r := adjugate4 m in
  let d := det4 m in
  fun i j => r i j / d.
End Linear.

Arguments Vec3 {Num}.
Arguments Vec4 {Num}.
Arguments Mat {Num}.

(** ** Rays and hit records *)

Section Data.
Context {Num : Scalar}.
Local Open Scope fl_scope.

(** Modelled from the spec: the [Ray] class lives in a header that is not
    part of the sources at hand.  A ray has an origin, a direction and a
    valid interval [tMin, tMax]; [ray(t)] is the point at parameter [t]. *)
Record Ray : Type := mkRay {
  getOrigin : Vec3;
  getDirection : Vec3;
  getTMin : F;
  getTMax : F
}.

Definition ray_at (r : Ray) (t : F) : Vec3 :=
  vadd (getOrigin r) (smul t (getDirection r)).

Inductive InterType : Type := GEOMETRY | LIGHT | NONE.

(** The material response stored in a hit record. *)
Record MatModel : Type := mkMatModel {
  Ambient : Vec3;
  Diffuse : Vec3;
  Specular : Vec3;
  Shininess : F
}.

Record Interaction : Type := mkInteraction {
  distance : F;
  position : Vec3;
  normal : Vec3;
  matmodel : MatModel;
  type : InterType
}.

Definition set_distance (i : Interaction) (t : F) : Interaction :=
  mkInteraction t (position i) (normal i) (matmodel i) (type i).
Definition set_position (i : Interaction) (p : Vec3) : Interaction :=
  mkInteraction (distance i) p (normal i) (matmodel i) (type i).
Definition set_normal (i : Interaction) (n : Vec3) : Interaction :=
  mkInteraction (distance i) (position i) n (matmodel i) (type i).
Definition set_type (i : Interaction) (k : InterType) : Interaction :=
  mkInteraction (distance i) (position i) (normal i) (matmodel i) k.
Definition set_matmodel (i : Interaction) (m : MatModel) : Interaction :=
  mkInteraction (distance i) (position i) (normal i) m (type i).

(** Modelled from the spec: the material model is an opaque collaborator;
    [material->evaluate(interaction)] reads the hit record and returns the
    material response. *)
Definition Material : Type := Interaction -> MatModel.

(** The five assignments every primitive performs on a hit, in the
    order of the source: distance, position, normal, type, and last the
    material evaluated on the record as filled so far. *)
Definition fill (material : Material) (i : Interaction)
           (t : F) (p n : Vec3) : Interaction :=
  let i := set_distance i t in
  let i := set_position i p in
  let i := set_normal i n in
  let i := set_type i GEOMETRY in
  set_matmodel i (material i).
End Data.

Arguments Ray {Num}.
Arguments MatModel {Num}.
Arguments Interaction {Num}.
Arguments Material {Num}.

(** ** Primitives ([geometry.cpp])

    An [intersect] takes the hit record by mutable reference: here it
    returns the boolean together with the record after the call. *)

Module Triangle.
Section Triangle.
Context {Num : Scalar}.
Local Open Scope fl_scope.

Record t : Type := make {
  v0 : Vec3;
  v1 : Vec3;
  v2 : Vec3;
  normal : Vec3;
  material : Material
}.

(** The Moller-Trumbore solve of [Triangle::intersect]: the vector [ans]. *)
Definition solve (tri : t) (ray : Ray) : Vec3 :=
  let o := getOrigin ray in
  let d := getDirection ray in
  let e1 := vsub (v1 tri) (v0 tri) in
  let e2 := vsub (v2 tri) (v0 tri) in
  let s := vsub o (v0 tri) in
  let s1 := cross d e2 in
  let s2 := cross s e1 in
  smul (i1 / dot s1 e1) (mkVec3 (dot s2 e2) (dot s1 s) (dot s2 d)).

Definition intersect (tri : t) (ray : Ray) (interaction : Interaction)
  : bool * Interaction :=
  let tmin := getTMin ray in
  let ans := solve tri ray in
  let t := vx ans in
  let u := vy ans in
  let v := vz ans in
  if (t >=? tmin) && (u >=? i0) && (v >=? i0) && (u + v <=? i1) then
    (true,
     fill (material tri) interaction t (ray_at ray t)
          (normalized (normal tri)))
  else (false, interaction).
End Triangle.
End Triangle.

Module Rectangle.
Section Rectangle.
Context {Num : Scalar}.
Local Open Scope fl_scope.

Record t : Type := make {
  position : Vec3;
  tangent : Vec3;
  normal : Vec3;
  (** [size.x()] and [size.y()] *)
  size_x : F;
  size_y : F;
  material : Material
}.

(** [EPS] is a constant of a header that is not among the sources; it is
    a parameter here. *)
Variable EPS : F.

Definition intersect (rect : t) (ray : Ray) (interaction : Interaction)
  : bool * Interaction :=
  let o := getOrigin ray in
  let d := getDirection ray in
  let width := size_x rect in
  let height := size_y rect in
  if fabs (dot d (normal rect)) <=? EPS then (false, interaction)
  else
    let t := dot (vsub (position rect) o) (normal rect)
             / dot d (normal rect) in
    let intersect_point := ray_at ray t in
    let delta_vec := vsub intersect_point (position rect) in
    let y_tangent := cross (normal rect) (tangent rect) in
    let dw := dot delta_vec (normalized (tangent rect)) in
    let dh := dot delta_vec (normalized y_tangent) in
    if (t >=? i0) && ((- width) / i2 <=? dw) && (dw <=? width / i2)
       && ((- height) / i2 <=? dh) && (dh <=? height / i2) then
      (true,
       fill (material rect) interaction t intersect_point
            (normalized (normal rect)))
    else (false, interaction).
End Rectangle.
End Rectangle.

Module Ground.
Section Ground.
Context {Num : Scalar}.
Local Open Scope fl_scope.

Record t : Type := make {
  z : F;
  material : Material
}.

Definition intersect (g : t) (ray : Ray) (interaction : Interaction)
  : bool * Interaction :=
  let t := (z g - vz (getOrigin ray)) / vz (getDirection ray) in
  if t <? getTMin ray then (false, interaction)
  else
    (true,
     fill (material g) interaction t (ray_at ray t) (mkVec3 i0 i0 i1)).
End Ground.
End Ground.

Module Ellipsoid.
Section Ellipsoid.
Context {Num : Scalar}.
Local Open Scope fl_scope.

Record t : Type := make {
  p : Vec3;
  a : Vec3;
  b : Vec3;
  c : Vec3;
  material : Material
}.

(** [M = T * R * S], the map from the unit sphere to the ellipsoid. *)
Definition transform (e : t) : Mat :=
  let T := mat_of_rows
    [[i1; i0; i0; vx (p e)];
     [i0; i1; i0; vy (p e)];
     [i0; i0; i1; vz (p e)];
     [i0; i0; i0; i1]] in
  let normalized_a := normalized (a e) in
  let normalized_b := normalized (b e) in
  let normalized_c := normalized (c e) in
  let R := mat_of_rows
    [[vx normalized_a; vx normalized_b; vx normalized_c; i0];
     [vy normalized_a; vy normalized_b; vy normalized_c; i0];
     [vz normalized_a; vz normalized_b; vz normalized_c; i0];
     [i0; i0; i0; i1]] in
  let S := mat_of_rows
    [[norm (a e); i0; i0; i0];
     [i0; norm (b e); i0; i0];
     [i0; i0; norm (c e); i0];
     [i0; i0; i0; i1]] in
  mat4_mul (mat4_mul T R) S.

(** The ray in unit-sphere space. *)
Definition origin_transformed (e : t) (ray : Ray) : Vec3 :=
  let M_inv := inverse4 (transform e) in
  let o := getOrigin ray in
  let origin_4d := mkVec4 (vx o) (vy o) (vz o) i1 in
  let r := mat4_mulv M_inv origin_4d in
  mkVec3 (wx r) (wy r) (wz r).

Definition direction_transformed (e : t) (ray : Ray) : Vec3 :=
  let M_inv := inverse4 (transform e) in
  let d := getDirection ray in
  let direction_4d := mkVec4 (vx d) (vy d) (vz d) i0 in
  let r := mat4_mulv M_inv direction_4d in
  mkVec3 (wx r) (wy r) (wz r).

(** Coefficients of the quadratic and its discriminant. *)
Definition quad_a (e : t) (ray : Ray) : F :=
  dot (direction_transformed e ray) (direction_transformed e ray).
Definition quad_b (e : t) (ray : Ray) : F :=
  i2 * dot (origin_transformed e ray) (direction_transformed e ray).
Definition quad_c (e : t) (ray : Ray) : F :=
  let radius := i1 in
  dot (origin_transformed e ray) (origin_transformed e ray)
  - radius * radius.
Definition delta (e : t) (ray : Ray) : F :=
  let a := quad_a e ray in
  let b := quad_b e ray in
  let c := quad_c e ray in
  b * b - i4 * a * c.

Definition root1 (e : t) (ray : Ray) : F :=
  (- quad_b e ray - fsqrt (delta e ray)) / (i2 * quad_a e ray).
Definition root2 (e : t) (ray : Ray) : F :=
  (- quad_b e ray + fsqrt (delta e ray)) / (i2 * quad_a e ray).

(** The root chosen by the three-way test, [None] for the [return false]
    of its last branch. *)
Definition select_root (t1 t2 : F) : option F :=
  if (t1 >? i0) && (t2 >? i0) then Some (fmin t1 t2)
  else if t1 >? i0 then Some t1
  else if t2 >? i0 then Some t2
  else None.

Definition hit_normal (e : t) (ray : Ray) (t : F) : Vec3 :=
  let M_3 := transform e in
  let M_inv_transpose := transpose (inverse3 M_3) in
  let position :=
    vadd (origin_transformed e ray) (smul t (direction_transformed e ray)) in
  mat3_mulv M_inv_transpose position.

Definition intersect (e : t) (ray : Ray) (interaction : Interaction)
  : bool * Interaction :=
  if delta e ray >? i0 then
    match select_root (root1 e ray) (root2 e ray) with
    | None => (false, interaction)
    | Some t =>
        if t <? getTMin ray then (false, interaction)
        else
          (true,
           fill (material e) interaction t (ray_at ray t)
                (normalized (hit_normal e ray t)))
    end
  else (false, interaction).
End Ellipsoid.
End Ellipsoid.

(** ** The renderer ([HypoxRayTracer.cpp]) *)

Module HypoxRayTracer.
Section HypoxRayTracer.
Context {Num : Scalar}.
Local Open Scope fl_scope.

(** A virtual point light. *)
Record VPL : Type := mkVPL {
  vpl_position : Vec3;
  vpl_color : Vec3
}.

(** Modelled from the spec: the scene, its light and the camera are
    declared in headers that are not among the sources.  The renderer uses
    them through these entry points only. *)
Record Scene : Type := mkScene {
  (** [scene->intersect(ray, interaction)] *)
  scene_intersect : Ray -> Interaction -> bool * Interaction;
  (** [scene->isShadowed(ray)] *)
  isShadowed : Ray -> bool;
  (** [scene->getAmbientLight()] *)
  getAmbientLight : Vec3;
  (** [scene->getLight()->getColor()] and [->getVPLs()] *)
  getColor : Vec3;
  getVPLs : list VPL
}.

Record Camera : Type := mkCamera {
  (** [camera->getImage()->getResolution()] *)
  resolution_x : Z;
  resolution_y : Z;
  (** [camera->generateSuperSamplingPoint(dx, dy, spp)] *)
  generateSuperSamplingPoint : Z -> Z -> Z -> list (F * F);
  (** [camera->generateRay(x, y)] *)
  generateRay : F -> F -> Ray
}.

(** Modelled from the spec: the two-argument [Ray] constructor keeps the
    origin and the direction it is given; the interval takes the defaults
    of the header, which are parameters here, as is the value of a
    default-constructed [Interaction]. *)
Variable default_tMin default_tMax : F.
Variable default_interaction : Interaction.

(** [powf] belongs to the C library; it is a parameter too. *)
Variable powf : F -> F -> F.

Definition Ray2 (o d : Vec3) : Ray := mkRay o d default_tMin default_tMax.

Variable scene : Scene.

(** The shadow ray built for one VPL. *)
Definition light_dir (interaction : Interaction) (vpl : VPL) : Vec3 :=
  normalized (vsub (vpl_position vpl) (position interaction)).

Definition shadow_ray (interaction : Interaction) (vpl : VPL) : Ray :=
  Ray2 (position interaction)
       (vadd (light_dir interaction vpl)
             (smul lit_0_01 (normal interaction))).

Definition diff_factor (interaction : Interaction) (vpl : VPL) : F :=
  fmax i0 (dot (normal interaction) (light_dir interaction vpl)).

Definition reflect_dir (interaction : Interaction) (vpl : VPL) : Vec3 :=
  let l := light_dir interaction vpl in
  normalized
    (vsub (smul (i2 * dot (normal interaction) l) (normal interaction)) l).

Definition spec_factor (ray : Ray) (interaction : Interaction) (vpl : VPL)
  : F :=
  powf (fmax i0 (dot (reflect_dir interaction vpl)
                     (vopp (getDirection ray))))
       (Shininess (matmodel interaction)).

(** One turn of the loop over the VPLs, on the pair [(diff, spec)]. *)
Definition vpl_step (ray : Ray) (interaction : Interaction) (n : F)
           (acc : Vec3 * Vec3) (vpl : VPL) : Vec3 * Vec3 :=
  let '(diff, spec) := acc in
  if isShadowed scene (shadow_ray interaction vpl) then (diff, spec)
  else
    let m := matmodel interaction in
    (vadd diff
          (vdivs (vmuls (cwiseProduct (Diffuse m) (vpl_color vpl))
                        (diff_factor interaction vpl)) n),
     vadd spec
          (vdivs (vmuls (cwiseProduct (Specular m) (vpl_color vpl))
                        (spec_factor ray interaction vpl)) n)).

Definition evalRadiance (ray : Ray) (interaction : Interaction) : Vec3 :=
  match type interaction with
  | LIGHT => getColor scene
  | _ =>
      let amb :=
        cwiseProduct (Ambient (matmodel interaction))
                     (getAmbientLight scene) in
      let vpls := getVPLs scene in
      let n := of_int (Z.of_nat (length vpls)) in
      let '(diff, spec) :=
        fold_left (vpl_step ray interaction n) vpls (vzero, vzero) in
      vadd (vadd amb diff) spec
  end.

Variable camera : Camera.
Variable spp : Z.

(** [int] arithmetic: a product outside the 32-bit range and a remainder
    by zero are undefined; both are [None]. *)
Definition int_mul (a b : Z) : option Z :=
  let r := (a * b)%Z in
  if ((- 2 ^ 31 <=? r) && (r <? 2 ^ 31))%Z then Some r else None.
Definition int_rem (a b : Z) : option Z :=
  if (b =? 0)%Z then None else Some (Z.rem a b).

(** One pass of the loop over the sample points of a pixel. *)
Definition sample_step (color : Vec3) (sample_point : F * F) : Vec3 :=
  let ray := generateRay camera (fst sample_point) (snd sample_point) in
  let '(hit, interaction) :=
    scene_intersect scene ray default_interaction in
  if hit then vadd color (evalRadiance ray interaction) else color.

(** The body of the loop over [dy]: the colour handed to [setPixel]. *)
Definition pixel_color (dx dy : Z) : option Vec3 :=
  let sample_points := generateSuperSamplingPoint camera dx dy spp in
  let color := fold_left sample_step sample_points vzero in
  match int_mul spp spp with
  | Some n => Some (vdivs color (of_int n))
  | None => None
  end.

(** A call [setPixel(dx, dy, color)]. *)
Definition PixelWrite : Type := (Z * Z * Vec3)%type.

Fixpoint render_rows (dx : Z) (rows : list Z) : option (list PixelWrite) :=
  match rows with
  | [] => Some []
  | dy :: rest =>
      match pixel_color dx dy with
      | None => None
      | Some c =>
          match render_rows dx rest with
          | None => None
          | Some ws => Some ((dx, dy, c) :: ws)
          end
      end
  end.

Definition upto (n : Z) : list Z := map Z.of_nat (seq 0 (Z.to_nat n)).

(** The body of the loop over [dx]: the progress test
    [dx % (resolution.x() / 200) == 0] comes first (the output it guards
    does not touch the image), then the column is rendered. *)
Definition render_column (dx : Z) : option (list PixelWrite) :=
  match int_rem dx (Z.quot (resolution_x camera) 200) with
  | None => None
  | Some _ => render_rows dx (upto (resolution_y camera))
  end.

Fixpoint render_columns (cols : list Z) : option (list PixelWrite) :=
  match cols with
  | [] => Some []
  | dx :: rest =>
      match render_column dx with
      | None => None
      | Some ws =>
          match render_columns rest with
          | None => None
          | Some ws' => Some (ws ++ ws')
          end
      end
  end.

(** [render]: the calls to [setPixel] in the order of a sequential run of
    the loop over the columns, or [None] when a run meets undefined
    behaviour. *)
Definition render : option (list PixelWrite) :=
  render_columns (upto (resolution_x camera)).
End HypoxRayTracer.
End HypoxRayTracer.

(** ** The two readings of the arithmetic *)

(** IEEE 754 single precision. *)
Definition b32_of_int (n : Z) : spec_float := binary_normalize 24 128 n 0 false.

Definition binary32 : Scalar :=
  {| F := spec_float;
     of_int := b32_of_int;
     (* 0.01 rounded to single precision: 0x3C23D70A *)
     lit_0_01 := S754_finite false 10737418 (-30);
     add := SFadd 24 128;
     sub := SFsub 24 128;
     mul := SFmul 24 128;
     div := SFdiv 24 128;
     opp := SFopp;
     fabs := SFabs;
     fsqrt := SFsqrt 24 128;
     ltb := SFltb;
     leb := SFleb |}.

(** Exact real arithmetic. *)
Definition Rltb (x y : R) : bool := if Rlt_dec x y then true else false.
Definition Rleb (x y : R) : bool := if Rle_dec x y then true else false.

Definition exact : Scalar :=
  {| F := R;
     of_int := IZR;
     lit_0_01 := (1 / 100)%R;
     add := Rplus;
     sub := Rminus;
     mul := Rmult;
     div := Rdiv;
     opp := Ropp;
     fabs := Rabs;
     fsqrt := sqrt;
     ltb := Rltb;
     leb := Rleb |}.

(** ** Statements of the specification, in its own words *)

(** What the comparisons of any sensible arithmetic satisfy; on [binary32]
    an operand of a comparison that holds is never NaN, which is what
    [ltb_ordered_l] and [ltb_ordered_r] say. *)
Class OrderLaws (Num : Scalar) : Prop := {
  ltb_leb : forall x y : F, ltb x y = true -> leb x y = true;
  leb_not_gtb : forall x y : F, leb x y = true -> ltb y x = false;
  ltb_ordered_l : forall x y : F, ltb x y = true -> leb x x = true;
  ltb_ordered_r : forall x y : F, ltb x y = true -> leb y y = true;
  not_ltb_leb : forall x y : F,
      leb x x = true -> leb y y = true -> ltb y x = false -> leb x y = true
}.

Section SpecWords.
Context {Num : Scalar}.
Local Open Scope fl_scope.

(** The Moller-Trumbore solution as the specification writes it:
    [(t, u, v) = (1/(s1.e1)) (s2.e2, s1.s, s2.d)]. *)
Definition mt_e1 (tri : Triangle.t) : Vec3 :=
  vsub (Triangle.v1 tri) (Triangle.v0 tri).
Definition mt_e2 (tri : Triangle.t) : Vec3 :=
  vsub (Triangle.v2 tri) (Triangle.v0 tri).
Definition mt_s (tri : Triangle.t) (ray : Ray) : Vec3 :=
  vsub (getOrigin ray) (Triangle.v0 tri).
Definition mt_s1 (tri : Triangle.t) (ray : Ray) : Vec3 :=
  cross (getDirection ray) (mt_e2 tri).
Definition mt_s2 (tri : Triangle.t) (ray : Ray) : Vec3 :=
  cross (mt_s tri ray) (mt_e1 tri).
Definition mt_scale (tri : Triangle.t) (ray : Ray) : F :=
  i1 / dot (mt_s1 tri ray) (mt_e1 tri).
Definition mt_t (tri : Triangle.t) (ray : Ray) : F :=
  mt_scale tri ray * dot (mt_s2 tri ray) (mt_e2 tri).
Definition mt_u (tri : Triangle.t) (ray : Ray) : F :=
  mt_scale tri ray * dot (mt_s1 tri ray) (mt_s tri ray).
Definition mt_v (tri : Triangle.t) (ray : Ray) : F :=
  mt_scale tri ray * dot (mt_s2 tri ray) (getDirection ray).

(** The acceptance test of the specification:
    [t >= tMin], [u >= 0], [v >= 0] and [u + v <= 1]. *)
Definition mt_hit (tri : Triangle.t) (ray : Ray) : Prop :=
  (mt_t tri ray >=? getTMin ray) = true /\
  (mt_u tri ray >=? i0) = true /\
  (mt_v tri ray >=? i0) = true /\
  (mt_u tri ray + mt_v tri ray <=? i1) = true.

(** The root an ellipsoid hit takes, as the specification words it: the
    smaller root when both are positive, else the single positive root,
    else none. *)
Definition smaller (t1 t2 : F) : F := if t1 <=? t2 then t1 else t2.

Definition chosen_root (t1 t2 : F) : option F :=
  match t1 >? i0, t2 >? i0 with
  | true, true => Some (smaller t1 t2)
  | true, false => Some t1
  | false, true => Some t2
  | false, false => None
  end.

(** A hit record is populated from [old] by a primitive with material
    [material]: the geometric fields are set, the discriminator is
    GEOMETRY, and the material response is the material evaluated on the
    record carrying those fields. *)
Definition populated (material : Material) (old new : Interaction) : Prop :=
  type new = GEOMETRY /\
  matmodel new =
    material (mkInteraction (distance new) (position new) (normal new)
                            (matmodel old) GEOMETRY).

(** A vector of length one. *)
Definition unit_vector (v : Vec3) : Prop := norm v = i1.
End SpecWords.

Section RenderWords.
Context {Num : Scalar}.
Local Open Scope fl_scope.
Import HypoxRayTracer.

Variable default_tMin default_tMax : F.
Variable default_interaction : Interaction.
Variable powf : F -> F -> F.
Variable scene : Scene.
Variable camera : Camera.
Variable spp : Z.

(** Sum of a finite sequence of colours, starting from black. *)
Definition vsum (l : list Vec3) : Vec3 := fold_left vadd l vzero.

(** A VPL is unshadowed when [isShadowed] is false on the shadow ray the
    renderer casts for it. *)
Definition unshadowed (interaction : Interaction) (v : VPL) : bool :=
  negb (isShadowed scene
          (shadow_ray default_tMin default_tMax interaction v)).

Definition number_of_VPLs : F := of_int (Z.of_nat (length (getVPLs scene))).

(** [light_dir = normalize(v.position - hit.position)] *)
Definition w_light_dir (interaction : Interaction) (v : VPL) : Vec3 :=
  normalized (vsub (vpl_position v) (position interaction)).

(** [reflect_dir = normalize(2 (normal.light_dir) normal - light_dir)] *)
Definition w_reflect_dir (interaction : Interaction) (v : VPL) : Vec3 :=
  normalized
    (vsub (smul (i2 * dot (normal interaction) (w_light_dir interaction v))
                (normal interaction))
          (w_light_dir interaction v)).

(** [diffuseReflectance (.) v.color x max(0, normal.light_dir) / #VPLs] *)
Definition diffuse_term (interaction : Interaction) (v : VPL) : Vec3 :=
  vdivs
    (vmuls (cwiseProduct (Diffuse (matmodel interaction)) (vpl_color v))
           (fmax i0 (dot (normal interaction) (w_light_dir interaction v))))
    number_of_VPLs.

(** [specularReflectance (.) v.color
     x max(0, reflect_dir.(-ray.direction))^shininess / #VPLs] *)
Definition specular_term (ray : Ray) (interaction : Interaction) (v : VPL)
  : Vec3 :=
  vdivs
    (vmuls (cwiseProduct (Specular (matmodel interaction)) (vpl_color v))
           (powf (fmax i0 (dot (w_reflect_dir interaction v)
                               (vopp (getDirection ray))))
                 (Shininess (matmodel interaction))))
    number_of_VPLs.

Definition ambient (interaction : Interaction) : Vec3 :=
  cwiseProduct (Ambient (matmodel interaction)) (getAmbientLight scene).

Definition diffuse (interaction : Interaction) : Vec3 :=
  vsum (map (diffuse_term interaction)
            (filter (unshadowed interaction) (getVPLs scene))).

Definition specular (ray : Ray) (interaction : Interaction) : Vec3 :=
  vsum (map (specular_term ray interaction)
            (filter (unshadowed interaction) (getVPLs scene))).

(** The radiance of the specification. *)
Definition radiance (ray : Ray) (interaction : Interaction) : Vec3 :=
  match type interaction with
  | LIGHT => getColor scene
  | _ => vadd (vadd (ambient interaction) (diffuse interaction))
              (specular ray interaction)
  end.

(** The camera ray of a sample point, whether it meets the scene, and
    the radiance it then carries. *)
Definition sample_ray (sp : F * F) : Ray :=
  generateRay camera (fst sp) (snd sp).
Definition sample_hits (sp : F * F) : bool :=
  fst (scene_intersect scene (sample_ray sp) default_interaction).
Definition sample_radiance (sp : F * F) : Vec3 :=
  evalRadiance default_tMin default_tMax powf scene (sample_ray sp)
    (snd (scene_intersect scene (sample_ray sp) default_interaction)).

(** The value of pixel [(dx, dy)]: the sum of the radiance over the
    samples that hit, divided by [spp * spp]. *)
Definition pixel_value (dx dy : Z) : Vec3 :=
  vdivs
    (vsum (map sample_radiance
               (filter sample_hits
                       (generateSuperSamplingPoint camera dx dy spp))))
    (of_int (spp * spp)).

(** The image as the specification describes it: for every column, for
    every row, one [setPixel] with the value of the pixel. *)
Definition column_writes (dx : Z) : list PixelWrite :=
  map (fun dy => (dx, dy, pixel_value dx dy)) (upto (resolution_y camera)).
Definition image_writes : list PixelWrite :=
  flat_map column_writes (upto (resolution_x camera)).

(** How many times a log of [setPixel] calls writes pixel [(dx, dy)]. *)
Definition writes_to (dx dy : Z) (ws : list PixelWrite) : nat :=
  length (filter (fun w => (fst (fst w) =? dx)%Z && (snd (fst w) =? dy)%Z)
                 ws).
End RenderWords.

(** ** Single-precision colours *)

(** A number (neither an infinity nor NaN), a zero of either sign, and a
    positive number. *)
Definition b32_finite (x : spec_float) : bool :=
  match x with
  | S754_zero _ | S754_finite _ _ _ => true
  | _ => false
  end.
Definition b32_is_zero (x : spec_float) : bool :=
  match x with
  | S754_zero _ => true
  | _ => false
  end.
Definition b32_positive (x : spec_float) : bool :=
  match x with
  | S754_finite false _ _ => true
  | _ => false
  end.

Definition finite3 (v : @Vec3 binary32) : Prop :=
  b32_finite (vx v) = true /\ b32_finite (vy v) = true
  /\ b32_finite (vz v) = true.
Definition zero3 (v : @Vec3 binary32) : Prop :=
  b32_is_zero (vx v) = true /\ b32_is_zero (vy v) = true
  /\ b32_is_zero (vz v) = true.

(** [f] holds of the [n] integers from [z] on. *)
Fixpoint all_from (f : Z -> bool) (z : Z) (n : nat) : bool :=
  match n with
  | O => true
  | S k => f z && all_from f (z + 1) k
  end.

(** A run of [render] that yields a pure black image: every pixel written
    is (0,0,0). *)
Definition renders_black (run : option (list (@HypoxRayTracer.PixelWrite binary32)))
  : Prop :=
  forall ws, run = Some ws -> forall w, In w ws -> snd w = vzero.

(** ** Loading a mesh ([Mesh::loadObj])

    The OBJ reader is a library outside the repository: what it hands over
    (the flat coordinate arrays and, per shape, the face sizes and the index
    records) is the input here, [None] standing for a file it could not
    parse.  A read past the end of a [std::vector] is undefined. *)

Module Mesh.
Section Mesh.
Context {Num : Scalar}.

(** [tinyobj::index_t], the two fields the loader reads. *)
Record index_t : Type := mkIndex {
  vertex_index : Z;
  normal_index : Z
}.

(** [shape.mesh]: one face size per face, and the index records of all its
    faces in a row. *)
Record shape_t : Type := mkShape {
  num_face_vertices : list nat;
  indices : list index_t
}.

(** [attrib.vertices] and [attrib.normals]: three numbers per point. *)
Record attrib_t : Type := mkAttrib {
  vertices : list F;
  normals : list F
}.

(** [for (i = 0; i < a.size(); i += 3) out.push_back(Vec3f(a[i], a[i+1],
    a[i+2]))]: as long as an element is left, three are read. *)
Fixpoint group3 (a : list F) : option (list Vec3) :=
  match a with
  | [] => Some []
  | x :: y :: z :: rest =>
      match group3 rest with
      | Some out => Some (mkVec3 x y z :: out)
      | None => None
      end
  | _ => None
  end.

(** [for (v_id = 0; v_id < fv; v_id++)] reading
    [indices[index_offset + v_id]]. *)
Fixpoint read_face (idx : list index_t) (index_offset fv : nat)
  : option (list index_t) :=
  match fv with
  | O => Some []
  | S k =>
      match nth_error idx index_offset with
      | None => None
      | Some i =>
          match read_face idx (S index_offset) k with
          | Some out => Some (i :: out)
          | None => None
          end
      end
  end.

(** The loop over the faces of a shape, [index_offset += fv] after each. *)
Fixpoint read_faces (idx : list index_t) (index_offset : nat)
         (faces : list nat) : option (list index_t) :=
  match faces with
  | [] => Some []
  | fv :: rest =>
      match read_face idx index_offset fv with
      | None => None
      | Some out =>
          match read_faces idx (index_offset + fv) rest with
          | Some out' => Some (out ++ out')
          | None => None
          end
      end
  end.

(** The loop over the shapes; every shape starts at [index_offset = 0]. *)
Fixpoint read_shapes (shapes : list shape_t) : option (list index_t) :=
  match shapes with
  | [] => Some []
  | s :: rest =>
      match read_faces (indices s) 0 (num_face_vertices s) with
      | None => None
      | Some out =>
          match read_shapes rest with
          | Some out' => Some (out ++ out')
          | None => None
          end
      end
  end.

(** What a call of [loadObj] comes to: [exit(1)], undefined behaviour, or
    the four vectors it has built when it prints their sizes. *)
Inductive outcome : Type :=
| Exit1
| Undefined
| Loaded (vs ns : list Vec3) (v_indices n_indices : list Z).

Definition loadObj (parsed : option (attrib_t * list shape_t)) : outcome :=
  match parsed with
  | None => Exit1
  | Some (attrib, shapes) =>
      match group3 (vertices attrib), group3 (normals attrib),
            read_shapes shapes with
      | Some vs, Some ns, Some idx =>
          Loaded vs ns (map vertex_index idx) (map normal_index idx)
      | _, _, _ => Undefined
      end
  end.

(** The coordinates of a list of points, in a row. *)
Definition flatten3 (vs : list Vec3) : list F :=
  flat_map (fun v => [vx v; vy v; vz v]) vs.

(** The number of index records the faces of a shape ask for. *)
Definition face_total (faces : list nat) : nat := fold_right Nat.add 0%nat faces.

(** The index records of a shape that belong to its faces: the first
    [face_total] of them. *)
Definition shape_indices (s : shape_t) : list index_t :=
  firstn (face_total (num_face_vertices s)) (indices s).

(** A shape whose faces ask for more index records than it has. *)
Definition overrun (s : shape_t) : Prop :=
  (length (indices s) < face_total (num_face_vertices s))%nat.
End Mesh.
End Mesh.

(** ** Scenes that differ in their VPLs only *)

(** The scene [scene] with the sample set of its light replaced by [vpls]. *)
Definition with_VPLs {Num : Scalar} (scene : HypoxRayTracer.Scene)
           (vpls : list HypoxRayTracer.VPL) : HypoxRayTracer.Scene :=
  HypoxRayTracer.mkScene
    (HypoxRayTracer.scene_intersect scene) (HypoxRayTracer.isShadowed scene)
    (HypoxRayTracer.getAmbientLight scene) (HypoxRayTracer.getColor scene)
    vpls.

(** ** Concrete data for the examples *)

Module Ex.
(** Single-precision numbers [m * 2^e]. *)
Definition fl (m e : Z) : @F binary32 := binary_normalize 24 128 m e false.
Definition vec (a b c : @F binary32) : @Vec3 binary32 := mkVec3 a b c.
Definition zero : @F binary32 := fl 0 0.
Definition one : @F binary32 := fl 1 0.
Definition half : @F binary32 := fl 1 (-1).
Definition quarter : @F binary32 := fl 1 (-2).
Definition o3 : @Vec3 binary32 := vec zero zero zero.

(** A grey material that ignores the hit record, and an empty record. *)
Definition grey : @MatModel binary32 :=
  mkMatModel (vec half half half) (vec half half half) (vec half half half)
             one.
Definition matte : @Material binary32 := fun _ => grey.
Definition blank : @Interaction binary32 :=
  mkInteraction zero o3 o3 grey NONE.

(** The default interval of a ray: [2^-10, 2^100]. *)
Definition tmin : @F binary32 := fl 1 (-10).
Definition tmax : @F binary32 := fl 1 100.
Definition ray (o d : @Vec3 binary32) : @Ray binary32 := mkRay o d tmin tmax.

(** The ground plane [z = 0]. *)
Definition ground : @Ground.t binary32 := Ground.make zero matte.
(** A horizontal ray that starts one unit below the ground. *)
Definition ray_below : @Ray binary32 :=
  ray (vec zero zero (fl (-1) 0)) (vec one zero zero).
(** A horizontal ray that runs inside the plane of the ground. *)
Definition ray_inside : @Ray binary32 := ray o3 (vec one zero zero).
(** A ray that falls onto the ground from height one. *)
Definition ray_down : @Ray binary32 :=
  ray (vec zero zero one) (vec zero zero (fl (-1) 0)).

(** The triangle (0,0,0), (1,0,0), (0,1,0), once with its face normal
    and once with a stored normal of zero. *)
Definition tri : @Triangle.t binary32 :=
  Triangle.make o3 (vec one zero zero) (vec zero one zero)
                (vec zero zero one) matte.
Definition tri_flat : @Triangle.t binary32 :=
  Triangle.make o3 (vec one zero zero) (vec zero one zero) o3 matte.
(** A ray from above through the point (1/4, 1/4, 0) of the triangle, and
    one that passes beside it. *)
Definition ray_tri : @Ray binary32 :=
  ray (vec quarter quarter one) (vec zero zero (fl (-1) 0)).
Definition ray_beside : @Ray binary32 :=
  ray (vec (fl 2 0) (fl 2 0) one) (vec zero zero (fl (-1) 0)).

(** The unit square centred at (0,0,1/2), facing up; [EPS = 2^-20]. *)
Definition eps : @F binary32 := fl 1 (-20).
Definition rect : @Rectangle.t binary32 :=
  Rectangle.make (vec zero zero half) (vec one zero zero)
                 (vec zero zero one) one one matte.
(** A ray from the origin straight up whose interval starts at 1. *)
Definition ray_up_late : @Ray binary32 :=
  mkRay o3 (vec zero zero one) one tmax.

(** The unit sphere at the origin. *)
Definition ball : @Ellipsoid.t binary32 :=
  Ellipsoid.make o3 (vec one zero zero) (vec zero one zero)
                 (vec zero zero one) matte.
(** A ray towards the sphere from (0,0,3), and one that misses it. *)
Definition ray_ball : @Ray binary32 :=
  ray (vec zero zero (fl 3 0)) (vec zero zero (fl (-1) 0)).
Definition ray_off : @Ray binary32 :=
  ray (vec (fl 2 0) zero (fl 3 0)) (vec zero zero (fl (-1) 0)).

(** An ellipsoid centred at (1,0,0) with half-axes 2, 1 and 4, a ray that
    falls on it from (1,0,8) and a ray that comes along the x axis from
    (8,0,0). *)
Definition egg : @Ellipsoid.t binary32 :=
  Ellipsoid.make (vec one zero zero) (vec (fl 2 0) zero zero)
                 (vec zero one zero) (vec zero zero (fl 4 0)) matte.
Definition ray_egg_top : @Ray binary32 :=
  ray (vec one zero (fl 8 0)) (vec zero zero (fl (-1) 0)).
Definition ray_egg_side : @Ray binary32 :=
  ray (vec (fl 8 0) zero zero) (vec (fl (-1) 0) zero zero).

(** A hit at the origin of a surface facing up, and a white VPL at
    (3,0,4), five units away. *)
Definition hit_up : @Interaction binary32 :=
  mkInteraction one o3 (vec zero zero one) grey GEOMETRY.
Definition vpl_aside : @HypoxRayTracer.VPL binary32 :=
  HypoxRayTracer.mkVPL (vec (fl 3 0) zero (fl 4 0)) (vec one one one).

(** The examples below never reach [powf]. *)
Definition powf_unreached : @F binary32 -> @F binary32 -> @F binary32 :=
  fun _ _ => S754_nan.

(** A scene without VPLs and without ambient light in which every camera
    ray sees [seen]; the colour of the light is white. *)
Definition dark_scene (seen : @Interaction binary32)
  : @HypoxRayTracer.Scene binary32 :=
  HypoxRayTracer.mkScene (fun _ _ => (true, seen)) (fun _ => false)
                         o3 (vec one one one) [].
(** What a camera ray sees: the light itself; a grey surface; a surface
    whose ambient reflectance is infinite. *)
Definition sees_light : @Interaction binary32 :=
  mkInteraction one o3 (vec zero zero one) grey LIGHT.
Definition glaring : @MatModel binary32 :=
  mkMatModel (vec (S754_infinity false) half half) (vec half half half)
             (vec half half half) one.
Definition sees_glare : @Interaction binary32 :=
  mkInteraction one o3 (vec zero zero one) glaring GEOMETRY.

(** A camera of [w] by [h] pixels looking down from height one; the
    [spp * spp] samples of a pixel all sit on its corner. *)
Definition camera (w h : Z) : @HypoxRayTracer.Camera binary32 :=
  HypoxRayTracer.mkCamera w h
    (fun dx dy spp => repeat (fl dx 0, fl dy 0) (Z.to_nat (spp * spp)))
    (fun x y => ray (vec x y one) (vec zero zero (fl (-1) 0))).
End Ex.

(** The same triangle and ground in exact arithmetic. *)
Module ExR.
Definition vec (a b c : R) : @Vec3 exact := mkVec3 (a : @F exact) b c.
Definition o3 : @Vec3 exact := vec 0 0 0.
Definition grey : @MatModel exact :=
  mkMatModel (vec (1/2) (1/2) (1/2)) (vec (1/2) (1/2) (1/2))
             (vec (1/2) (1/2) (1/2)) (1%R : @F exact).
Definition matte : @Material exact := fun _ => grey.
Definition blank : @Interaction exact :=
  mkInteraction (0%R : @F exact) o3 o3 grey NONE.
Definition ray (o d : @Vec3 exact) : @Ray exact :=
  mkRay o d ((1/1024)%R : @F exact) (1024%R : @F exact).

Definition ground : @Ground.t exact := Ground.make (0%R : @F exact) matte.
Definition ray_down : @Ray exact := ray (vec 0 0 1) (vec 0 0 (-1)).

Definition tri : @Triangle.t exact :=
  Triangle.make o3 (vec 1 0 0) (vec 0 1 0) (vec 0 0 2) matte.
Definition tri_flat : @Triangle.t exact :=
  Triangle.make o3 (vec 1 0 0) (vec 0 1 0) o3 matte.
Definition ray_tri : @Ray exact := ray (vec (1/4) (1/4) 1) (vec 0 0 (-1)).
End ExR.

(** ** Tactics *)

(** Reads the operations of [exact] as the operations of the reals. *)
Ltac real_ops :=
  change (@F exact) with R in *;
  change (@add exact) with Rplus in *;
  change (@sub exact) with Rminus in *;
  change (@mul exact) with Rmult in *;
  change (@div exact) with Rdiv in *;
  change (@opp exact) with Ropp in *;
  change (@fabs exact) with Rabs in *;
  change (@fsqrt exact) with sqrt in *;
  change (@ltb exact) with Rltb in *;
  change (@leb exact) with Rleb in *;
  change (@i0 exact) with 0%R in *;
  change (@i1 exact) with 1%R in *;
  change (@i2 exact) with 2%R in *;
  change (@i4 exact) with 4%R in *.

(** ** More data in exact arithmetic *)

Module ExS.
(** The unit square centred at (0,0,1/2), facing up, and the ray that leaves
    the origin upwards. *)
Definition rect : @Rectangle.t exact :=
  Rectangle.make (ExR.vec 0 0 (1/2)) (ExR.vec 1 0 0) (ExR.vec 0 0 1)
                 (1%R : @F exact) (1%R : @F exact) ExR.matte.
Definition ray_up : @Ray exact := ExR.ray (ExR.vec 0 0 0) (ExR.vec 0 0 1).

(** The unit sphere at the origin and a ray towards it from (0,0,3). *)
Definition ball : @Ellipsoid.t exact :=
  Ellipsoid.make ExR.o3 (ExR.vec 1 0 0) (ExR.vec 0 1 0) (ExR.vec 0 0 1)
                 ExR.matte.
Definition ray_ball : @Ray exact := ExR.ray (ExR.vec 0 0 3) (ExR.vec 0 0 (-1)).

(** A hit at the origin of a surface facing up, a VPL four units straight
    above it and one at (3,0,4); a scene that casts no shadow. *)
Definition hit_up : @Interaction exact :=
  mkInteraction (1%R : @F exact) ExR.o3 (ExR.vec 0 0 1) ExR.grey GEOMETRY.
Definition vpl_above : @HypoxRayTracer.VPL exact :=
  HypoxRayTracer.mkVPL (ExR.vec 0 0 4) (ExR.vec 1 1 1).
Definition vpl_aside : @HypoxRayTracer.VPL exact :=
  HypoxRayTracer.mkVPL (ExR.vec 3 0 4) (ExR.vec 1 1 1).
Definition open_scene : @HypoxRayTracer.Scene exact :=
  HypoxRayTracer.mkScene (fun _ _ => (true, hit_up)) (fun _ => false)
                         ExR.o3 (ExR.vec 1 1 1) [].

(** A camera of 200 by 1 pixels whose only sample per pixel looks straight
    down. *)
Definition sample0 : @F exact * @F exact := (0%R, 0%R).
Definition camera1 : @HypoxRayTracer.Camera exact :=
  HypoxRayTracer.mkCamera 200 1 (fun _ _ _ => [sample0])
                          (fun _ _ => ExR.ray_down).
End ExS.

(** ** More single-precision data *)

Module ExT.
(** A horizontal ray at height one: it runs along the plane of the triangle
    [Ex.tri] and above the ground [Ex.ground]. *)
Definition ray_level : @Ray binary32 :=
  Ex.ray (Ex.vec Ex.zero Ex.zero Ex.one) (Ex.vec Ex.one Ex.zero Ex.zero).

(** A mesh file of two points, one normal and one triangle-sized face that
    uses three index records. *)
Definition attrib : @Mesh.attrib_t binary32 :=
  Mesh.mkAttrib [Ex.zero; Ex.zero; Ex.zero; Ex.one; Ex.zero; Ex.zero]
                [Ex.zero; Ex.zero; Ex.one].
Definition shape : Mesh.shape_t :=
  Mesh.mkShape [3%nat]
               [Mesh.mkIndex 0 0; Mesh.mkIndex 1 0; Mesh.mkIndex 0 0;
                Mesh.mkIndex 1 0].

(** The unit sphere of [Ex.ball] flattened: its third axis is the zero
    vector, so that its matrix has no inverse. *)
Definition disc : @Ellipsoid.t binary32 :=
  Ellipsoid.make Ex.o3 (Ex.vec Ex.one Ex.zero Ex.zero)
                 (Ex.vec Ex.zero Ex.one Ex.zero) Ex.o3 Ex.matte.

End ExT.

(** * Properties *)

(** ** The comparisons of the two arithmetics *)

Lemma SFcompare_antisym (x y : spec_float) :
  SFcompare y x = option_map CompOpp (SFcompare x y).
Proof.
  destruct x as [sx | sx | | sx mx ex], y as [sy | sy | | sy my ey];
    simpl; try reflexivity;
    try (destruct sx; reflexivity); try (destruct sy; reflexivity);
    try (destruct sx, sy; reflexivity).
  destruct sx, sy; simpl; try reflexivity; f_equal;
    rewrite (Z.compare_antisym ex ey);
    destruct (ex ?= ey)%Z; simpl; try reflexivity;
    pose proof (Pos.compare_cont_antisym mx my Eq) as A; simpl in A;
    rewrite <- A; destruct (Pos.compare_cont Eq mx my); reflexivity.
Qed.

Lemma SFcompare_refl (x : spec_float) :
  x <> S754_nan -> SFcompare x x = Some Eq.
Proof.
  destruct x as [s | s | | s m e]; simpl; intros Hx;
    try reflexivity; try (destruct s; reflexivity); try congruence.
  destruct s; rewrite Z.compare_refl, Pos.compare_cont_refl; reflexivity.
Qed.

Lemma SFcompare_some_l (x y : spec_float) (c : comparison) :
  SFcompare x y = Some c -> x <> S754_nan.
Proof. intros H ->. discriminate H. Qed.

Lemma SFcompare_some_r (x y : spec_float) (c : comparison) :
  SFcompare x y = Some c -> y <> S754_nan.
Proof. intros H ->. destruct x; discriminate H. Qed.

Lemma SFcompare_ordered (x y : spec_float) :
  x <> S754_nan -> y <> S754_nan -> exists c, SFcompare x y = Some c.
Proof.
  destruct x, y; simpl; intros Hx Hy; try congruence; eauto.
Qed.

Lemma SFleb_refl_ordered (x : spec_float) :
  SFleb x x = true <-> x <> S754_nan.
Proof.
  split.
  - intros H ->. discriminate H.
  - intros H. unfold SFleb. now rewrite SFcompare_refl.
Qed.

#[export] Instance binary32_order : OrderLaws binary32.
Proof.
  constructor; simpl; intros x y.
  - unfold SFltb, SFleb. destruct (SFcompare x y) as [[]|]; easy.
  - unfold SFltb, SFleb. rewrite (SFcompare_antisym x y).
    destruct (SFcompare x y) as [[]|]; easy.
  - unfold SFltb. destruct (SFcompare x y) as [c|] eqn:E; try easy.
    intros _. apply SFleb_refl_ordered. eapply SFcompare_some_l; eauto.
  - unfold SFltb. destruct (SFcompare x y) as [c|] eqn:E; try easy.
    intros _. apply SFleb_refl_ordered. eapply SFcompare_some_r; eauto.
  - intros Hx Hy. apply SFleb_refl_ordered in Hx, Hy.
    destruct (SFcompare_ordered Hx Hy) as [c E].
    unfold SFltb, SFleb. rewrite (SFcompare_antisym x y), E.
    destruct c; easy.
Qed.

Lemma Rltb_true (x y : R) : Rltb x y = true <-> (x < y)%R.
Proof. unfold Rltb. destruct (Rlt_dec x y); split; easy. Qed.

Lemma Rleb_true (x y : R) : Rleb x y = true <-> (x <= y)%R.
Proof. unfold Rleb. destruct (Rle_dec x y); split; easy. Qed.

Lemma Rltb_false (x y : R) : Rltb x y = false <-> (y <= x)%R.
Proof. unfold Rltb. destruct (Rlt_dec x y); split; try easy; lra. Qed.

Lemma Rleb_false (x y : R) : Rleb x y = false <-> (y < x)%R.
Proof. unfold Rleb. destruct (Rle_dec x y); split; try easy; lra. Qed.

#[export] Instance exact_order : OrderLaws exact.
Proof.
  constructor; simpl; intros x y;
    rewrite ?Rltb_true, ?Rleb_true, ?Rltb_false; lra.
Qed.

(** ** What a hit writes *)

Section Fill.
Context {Num : Scalar}.
Variables (material : Material) (old : Interaction) (t : F) (p n : Vec3).

Lemma fill_distance : distance (fill material old t p n) = t.
Proof. reflexivity. Qed.

Lemma fill_position : position (fill material old t p n) = p.
Proof. reflexivity. Qed.


Lemma fill_type : type (fill material old t p n) = GEOMETRY.
Proof. reflexivity. Qed.

Lemma fill_populated : populated material old (fill material old t p n).
Proof. split; reflexivity. Qed.
End Fill.

(** Two vectors with the same coordinates are the same vector. *)
Lemma vec3_ext {Num : Scalar} (a b : Vec3) :
  vx a = vx b -> vy a = vy b -> vz a = vz b -> a = b.
Proof. destruct a, b; cbn; intros; subst; reflexivity. Qed.

(** ** Triangle *)

Section TriangleProps.
Context {Num : Scalar}.
Local Open Scope fl_scope.
Variables (tri : Triangle.t) (ray : Ray) (interaction : Interaction).

Lemma triangle_solve_words :
  Triangle.solve tri ray
  = mkVec3 (mt_t tri ray) (mt_u tri ray) (mt_v tri ray).
Proof. reflexivity. Qed.

Lemma triangle_intersect_cases :
  (mt_hit tri ray /\
   Triangle.intersect tri ray interaction
   = (true, fill (Triangle.material tri) interaction (mt_t tri ray)
                 (ray_at ray (mt_t tri ray))
                 (normalized (Triangle.normal tri))))
  \/ (~ mt_hit tri ray /\
      Triangle.intersect tri ray interaction = (false, interaction)).
Proof.
  unfold Triangle.intersect, mt_hit.
  rewrite triangle_solve_words; cbn [vx vy vz].
  destruct (mt_t tri ray >=? getTMin ray); cbn [andb];
    [ destruct (mt_u tri ray >=? i0); cbn [andb];
      [ destruct (mt_v tri ray >=? i0); cbn [andb];
        [ destruct (mt_u tri ray + mt_v tri ray <=? i1) | ] | ] | ];
    first [ left; now repeat split
          | right; split; [ intros (? & ? & ? & ?); discriminate
                          | reflexivity ] ].
Qed.
End TriangleProps.

(** C1. [Triangle::intersect] solves for [(t, u, v)] by Moller-Trumbore,
    returns true exactly when [t >= tMin], [u >= 0], [v >= 0] and
    [u + v <= 1], and then records the distance [t], the position [ray(t)]
    and the normalised stored face normal. *)
Theorem triangle_intersect_moller_trumbore
        {Num : Scalar} (tri : Triangle.t) (ray : Ray)
        (interaction : Interaction) :
  let r := Triangle.intersect tri ray interaction in
  (fst r = true <-> mt_hit tri ray) /\
  (fst r = true ->
   distance (snd r) = mt_t tri ray /\
   position (snd r) = ray_at ray (mt_t tri ray) /\
   normal (snd r) = normalized (Triangle.normal tri)).
Proof.
  cbv zeta.
  destruct (triangle_intersect_cases tri ray interaction)
    as [[Hh ->] | [Hn ->]]; cbn [fst snd].
  - split; [ tauto | intros _; repeat split ].
  - split; [ split; [ discriminate | tauto ] | discriminate ].
Qed.

Lemma triangle_intersect_moller_trumbore_witness :
  mt_hit Ex.tri Ex.ray_tri /\
  distance (snd (Triangle.intersect Ex.tri Ex.ray_tri Ex.blank)) = Ex.one.
Proof.
  destruct (triangle_intersect_moller_trumbore Ex.tri Ex.ray_tri Ex.blank)
    as [Hiff Hhit].
  split.
  - apply Hiff. vm_compute. reflexivity.
  - destruct Hhit as [Hd _]; [ vm_compute; reflexivity | ].
    rewrite Hd. vm_compute. reflexivity.
Defined.

(** ** Rectangle, ellipsoid, ground: the two exits of [intersect] *)

Section ExitProps.
Context {Num : Scalar}.
Local Open Scope fl_scope.
Variable EPS : F.
Variables (ray : Ray) (interaction : Interaction).

Lemma rectangle_intersect_cases (rect : Rectangle.t) :
  (exists t p,
      Rectangle.intersect EPS rect ray interaction
      = (true, fill (Rectangle.material rect) interaction t p
                    (normalized (Rectangle.normal rect)))
      /\ (fabs (dot (getDirection ray) (Rectangle.normal rect)) <=? EPS)
         = false
      /\ (t >=? i0) = true)
  \/ Rectangle.intersect EPS rect ray interaction = (false, interaction).
Proof.
  unfold Rectangle.intersect.
  destruct (fabs (dot (getDirection ray) (Rectangle.normal rect)) <=? EPS);
    [ now right | ].
  match goal with
  | |- context [ if (?c >=? i0) && ?a && ?b && ?d && ?e then _ else _ ] =>
      destruct (c >=? i0) eqn:Ht; cbn [andb];
      [ destruct (a && b && d && e) eqn:Hr | ]
  end.
  - left. do 2 eexists. repeat split. exact Ht.
  - now right.
  - now right.
Qed.

Lemma ellipsoid_intersect_cases (e : Ellipsoid.t) :
  (exists t,
      Ellipsoid.intersect e ray interaction
      = (true, fill (Ellipsoid.material e) interaction t (ray_at ray t)
                    (normalized (Ellipsoid.hit_normal e ray t)))
      /\ (Ellipsoid.delta e ray >? i0) = true
      /\ Ellipsoid.select_root (Ellipsoid.root1 e ray) (Ellipsoid.root2 e ray)
         = Some t
      /\ (t <? getTMin ray) = false)
  \/ Ellipsoid.intersect e ray interaction = (false, interaction).
Proof.
  unfold Ellipsoid.intersect.
  destruct (Ellipsoid.delta e ray >? i0); [ | now right ].
  destruct (Ellipsoid.select_root _ _) as [t|]; [ | now right ].
  destruct (t <? getTMin ray) eqn:Ht; [ now right | ].
  left. exists t. now repeat split.
Qed.

Lemma ground_intersect_cases (g : Ground.t) :
  let t := (Ground.z g - vz (getOrigin ray)) / vz (getDirection ray) in
  (Ground.intersect g ray interaction
   = (true, fill (Ground.material g) interaction t (ray_at ray t)
                 (mkVec3 i0 i0 i1))
   /\ (t <? getTMin ray) = false)
  \/ Ground.intersect g ray interaction = (false, interaction).
Proof.
  cbv zeta. unfold Ground.intersect.
  destruct (_ <? getTMin ray); [ now right | now left ].
Qed.
End ExitProps.

(** C9. When [Triangle::intersect], [Rectangle::intersect] or
    [Ellipsoid::intersect] returns false, the hit record handed in is the
    hit record handed back: no field has been written. *)
Theorem miss_leaves_interaction_unchanged
        {Num : Scalar} (EPS : F) (tri : Triangle.t) (rect : Rectangle.t)
        (e : Ellipsoid.t) (ray : Ray) (interaction : Interaction) :
  (fst (Triangle.intersect tri ray interaction) = false ->
   snd (Triangle.intersect tri ray interaction) = interaction) /\
  (fst (Rectangle.intersect EPS rect ray interaction) = false ->
   snd (Rectangle.intersect EPS rect ray interaction) = interaction) /\
  (fst (Ellipsoid.intersect e ray interaction) = false ->
   snd (Ellipsoid.intersect e ray interaction) = interaction).
Proof.
  split; [ | split ].
  - destruct (triangle_intersect_cases tri ray interaction)
      as [[_ ->] | [_ ->]]; cbn; [ discriminate | reflexivity ].
  - destruct (rectangle_intersect_cases EPS ray interaction rect)
      as [(t & p & -> & _) | ->]; cbn; [ discriminate | reflexivity ].
  - destruct (ellipsoid_intersect_cases ray interaction e)
      as [(t & -> & _) | ->]; cbn; [ discriminate | reflexivity ].
Qed.

Lemma miss_leaves_interaction_unchanged_witness :
  snd (Triangle.intersect Ex.tri Ex.ray_beside Ex.blank) = Ex.blank /\
  snd (Rectangle.intersect Ex.eps Ex.rect Ex.ray_beside Ex.blank) = Ex.blank /\
  snd (Ellipsoid.intersect Ex.ball Ex.ray_off Ex.blank) = Ex.blank.
Proof.
  destruct (miss_leaves_interaction_unchanged
              Ex.eps Ex.tri Ex.rect Ex.ball Ex.ray_beside Ex.blank)
    as (Ht & Hr & _).
  destruct (miss_leaves_interaction_unchanged
              Ex.eps Ex.tri Ex.rect Ex.ball Ex.ray_off Ex.blank)
    as (_ & _ & He).
  split; [ | split ].
  - apply Ht. vm_compute. reflexivity.
  - apply Hr. vm_compute. reflexivity.
  - apply He. vm_compute. reflexivity.
Defined.

(** ** Ellipsoid: the choice of the root *)

Section RootChoice.
Context {Num : Scalar} {Laws : OrderLaws Num}.
Local Open Scope fl_scope.

(** [std::min] picks the smaller of two positive numbers. *)
Lemma fmin_smaller (t1 t2 : F) :
  (t1 >? i0) = true -> (t2 >? i0) = true -> fmin t1 t2 = smaller t1 t2.
Proof.
  intros H1 H2. unfold fmin, smaller.
  apply ltb_ordered_r in H1, H2.
  destruct (t2 <? t1) eqn:E.
  - destruct (t1 <=? t2) eqn:E'; [ | reflexivity ].
    apply leb_not_gtb in E'. congruence.
  - now rewrite (not_ltb_leb _ _ H1 H2 E).
Qed.

Lemma smaller_below (t1 t2 : F) :
  (t1 >? i0) = true -> (t2 >? i0) = true ->
  (smaller t1 t2 <=? t1) = true /\ (smaller t1 t2 <=? t2) = true.
Proof.
  intros H1 H2. unfold smaller.
  apply ltb_ordered_r in H1, H2.
  destruct (t1 <=? t2) eqn:E; [ now split | ].
  split; [ | assumption ].
  destruct (t1 <? t2) eqn:E'.
  - apply ltb_leb in E'. congruence.
  - now apply not_ltb_leb.
Qed.

Lemma select_root_words (t1 t2 : F) :
  Ellipsoid.select_root t1 t2 = chosen_root t1 t2.
Proof.
  unfold Ellipsoid.select_root, chosen_root.
  destruct (t1 >? i0) eqn:H1, (t2 >? i0) eqn:H2; cbn [andb];
    try reflexivity.
  now rewrite fmin_smaller.
Qed.
End RootChoice.

(** C4. In unit-sphere space [Ellipsoid::intersect] misses when the
    discriminant is at most zero, and more generally whenever the test
    [delta > 0] fails (a discriminant that is not a number included);
    otherwise it takes the smaller root when both roots are positive, else
    the one positive root, else it misses; and it misses when the root taken
    lies below [tMin].  (In the remaining case it hits at the root taken.)
    The three cases cover every ellipsoid and every ray. *)
Theorem ellipsoid_root_selection
        {Num : Scalar} {Laws : OrderLaws Num}
        (e : Ellipsoid.t) (ray : Ray) (interaction : Interaction) :
  let r := Ellipsoid.intersect e ray interaction in
  ((Ellipsoid.delta e ray <=? i0)%fl = true -> r = (false, interaction)) /\
  ((Ellipsoid.delta e ray >? i0)%fl = false -> r = (false, interaction)) /\
  ((Ellipsoid.delta e ray >? i0)%fl = true ->
   match chosen_root (Ellipsoid.root1 e ray) (Ellipsoid.root2 e ray) with
   | None => r = (false, interaction)
   | Some t =>
       if (t <? getTMin ray)%fl then r = (false, interaction)
       else fst r = true /\ distance (snd r) = t
   end).
Proof.
  cbv zeta. unfold Ellipsoid.intersect. split; [ | split ].
  - intros Hd. now rewrite (leb_not_gtb _ _ Hd).
  - now intros ->.
  - intros ->. rewrite select_root_words.
    destruct (chosen_root _ _) as [t|]; [ | reflexivity ].
    destruct (ltb t (getTMin ray)); [ reflexivity | now split ].
Qed.

Lemma ellipsoid_root_selection_witness :
  Ellipsoid.intersect Ex.ball Ex.ray_off Ex.blank = (false, Ex.blank) /\
  Ellipsoid.intersect ExT.disc Ex.ray_ball Ex.blank = (false, Ex.blank) /\
  distance (snd (Ellipsoid.intersect Ex.ball Ex.ray_ball Ex.blank))
  = Ex.fl 2 0.
Proof.
  split; [ | split ].
  - apply (proj1 (@ellipsoid_root_selection binary32 binary32_order
                    Ex.ball Ex.ray_off Ex.blank)).
    vm_compute. reflexivity.
  - apply (proj1 (proj2 (@ellipsoid_root_selection binary32 binary32_order
                           ExT.disc Ex.ray_ball Ex.blank))).
    vm_compute. reflexivity.
  - pose proof (proj2 (proj2 (@ellipsoid_root_selection binary32
                                binary32_order Ex.ball Ex.ray_ball Ex.blank)))
      as H.
    cbv zeta in H.
    assert (Hd : ltb i0 (Ellipsoid.delta Ex.ball Ex.ray_ball) = true)
      by (vm_compute; reflexivity).
    specialize (H Hd).
    replace (chosen_root (Ellipsoid.root1 Ex.ball Ex.ray_ball)
                         (Ellipsoid.root2 Ex.ball Ex.ray_ball))
      with (Some (Ex.fl 2 0)) in H by (vm_compute; reflexivity).
    replace (ltb (Ex.fl 2 0) (getTMin Ex.ray_ball)) with false in H
      by (vm_compute; reflexivity).
    exact (proj2 H).
Defined.

(** The embedding at work: the ellipsoid with half-axes 2, 1, 4 around
    (1,0,0) is met from above at distance 4 in (1,0,4) with normal (0,0,1),
    and from the side at distance 5 in (3,0,0) with normal (1,0,0). *)
Example ellipsoid_example_top :
  let r := Ellipsoid.intersect Ex.egg Ex.ray_egg_top Ex.blank in
  fst r = true /\ distance (snd r) = Ex.fl 4 0 /\
  vx (position (snd r)) = Ex.one /\ vz (position (snd r)) = Ex.fl 4 0 /\
  vx (normal (snd r)) = Ex.zero /\ vz (normal (snd r)) = Ex.one.
Proof. vm_compute. repeat split. Qed.

Example ellipsoid_example_side :
  let r := Ellipsoid.intersect Ex.egg Ex.ray_egg_side Ex.blank in
  fst r = true /\ distance (snd r) = Ex.fl 5 0 /\
  vx (position (snd r)) = Ex.fl 3 0 /\ vz (position (snd r)) = Ex.zero /\
  vx (normal (snd r)) = Ex.one /\ vz (normal (snd r)) = Ex.zero.
Proof. vm_compute. repeat split. Qed.

(** ** Forward hits *)

Section Forward.
Context {Num : Scalar}.
Local Open Scope fl_scope.
Variables (ray : Ray) (interaction : Interaction).

(** A triangle hit lies at or beyond [tMin]. *)
Lemma triangle_hit_forward (tri : Triangle.t) :
  fst (Triangle.intersect tri ray interaction) = true ->
  (distance (snd (Triangle.intersect tri ray interaction)) >=? getTMin ray)
  = true.
Proof.
  destruct (triangle_intersect_cases tri ray interaction)
    as [[(Ht & _) ->] | [_ ->]]; cbn; [ intros _; exact Ht | discriminate ].
Qed.

(** An ellipsoid hit lies at or beyond [tMin], when [tMin] is a number. *)
Lemma ellipsoid_hit_forward {Laws : OrderLaws Num} (e : Ellipsoid.t) :
  (getTMin ray <=? getTMin ray) = true ->
  fst (Ellipsoid.intersect e ray interaction) = true ->
  (distance (snd (Ellipsoid.intersect e ray interaction)) >=? getTMin ray)
  = true.
Proof.
  intros Hm.
  destruct (ellipsoid_intersect_cases ray interaction e)
    as [(t & -> & _ & Hs & Ht) | ->]; cbn; [ intros _ | discriminate ].
  apply not_ltb_leb; try assumption.
  rewrite select_root_words in Hs. unfold chosen_root in Hs.
  destruct (Ellipsoid.root1 e ray >? i0) eqn:H1,
           (Ellipsoid.root2 e ray >? i0) eqn:H2;
    inversion Hs; subst; clear Hs.
  - unfold smaller.
    destruct (Ellipsoid.root1 e ray <=? Ellipsoid.root2 e ray);
      eapply ltb_ordered_r; eassumption.
  - eapply ltb_ordered_r; eassumption.
  - eapply ltb_ordered_r; eassumption.
Qed.

(** A rectangle hit lies at or beyond zero: [tMin] is not consulted. *)
Lemma rectangle_hit_nonnegative (EPS : F) (rect : Rectangle.t) :
  fst (Rectangle.intersect EPS rect ray interaction) = true ->
  (distance (snd (Rectangle.intersect EPS rect ray interaction)) >=? i0)
  = true.
Proof.
  destruct (rectangle_intersect_cases EPS ray interaction rect)
    as [(t & p & -> & _ & Ht) | ->]; cbn; [ intros _; exact Ht | discriminate ].
Qed.
End Forward.

(** Every hit is populated: geometric fields, the GEOMETRY discriminator and
    the material evaluated on them. *)
Lemma hit_is_populated
      {Num : Scalar} (EPS : F) (ray : Ray) (interaction : Interaction)
      (tri : Triangle.t) (rect : Rectangle.t) (e : Ellipsoid.t)
      (g : Ground.t) :
  (fst (Triangle.intersect tri ray interaction) = true ->
   populated (Triangle.material tri) interaction
             (snd (Triangle.intersect tri ray interaction))) /\
  (fst (Rectangle.intersect EPS rect ray interaction) = true ->
   populated (Rectangle.material rect) interaction
             (snd (Rectangle.intersect EPS rect ray interaction))) /\
  (fst (Ellipsoid.intersect e ray interaction) = true ->
   populated (Ellipsoid.material e) interaction
             (snd (Ellipsoid.intersect e ray interaction))) /\
  (fst (Ground.intersect g ray interaction) = true ->
   populated (Ground.material g) interaction
             (snd (Ground.intersect g ray interaction))).
Proof.
  split; [ | split; [ | split ] ].
  - destruct (triangle_intersect_cases tri ray interaction)
      as [[_ ->] | [_ ->]]; cbn [fst snd];
      [ intros _; apply fill_populated | discriminate ].
  - destruct (rectangle_intersect_cases EPS ray interaction rect)
      as [(t & p & -> & _) | ->]; cbn [fst snd];
      [ intros _; apply fill_populated | discriminate ].
  - destruct (ellipsoid_intersect_cases ray interaction e)
      as [(t & -> & _) | ->]; cbn [fst snd];
      [ intros _; apply fill_populated | discriminate ].
  - destruct (ground_intersect_cases ray interaction g)
      as [[-> _] | ->]; cbn [fst snd];
      [ intros _; apply fill_populated | discriminate ].
Qed.

(** C3, on the code.  The unit square at height 1/2 is met at distance 1/2
    by the ray that leaves the origin upwards; the interval of the ray
    starts at [tMin = 1].  [Rectangle::intersect] tests [t >= 0], not
    [t >= tMin], and reports the hit. *)
Theorem rectangle_hit_below_tMin :
  let r := Rectangle.intersect Ex.eps Ex.rect Ex.ray_up_late Ex.blank in
  fst r = true /\
  distance (snd r) = Ex.half /\
  getTMin Ex.ray_up_late = Ex.one /\
  leb (getTMin Ex.ray_up_late) (distance (snd r)) = false.
Proof. vm_compute. repeat split. Qed.

(** On single precision, a horizontal ray is rejected by the ground only
    when the quotient is minus infinity: NaN and plus infinity are not below
    any [tMin]. *)
Lemma ground_horizontal_miss_only_at_minus_infinity
      (g : @Ground.t binary32) (ray : @Ray binary32)
      (interaction : @Interaction binary32) :
  b32_is_zero (vz (getDirection ray)) = true ->
  fst (Ground.intersect g ray interaction) = false ->
  SFdiv 24 128 (SFsub 24 128 (Ground.z g) (vz (getOrigin ray)))
        (vz (getDirection ray))
  = S754_infinity true.
Proof.
  unfold Ground.intersect. cbn [div sub ltb binary32].
  destruct (vz (getDirection ray)) as [s | | |]; try discriminate.
  intros _.
  destruct (SFsub 24 128 (Ground.z g) (vz (getOrigin ray)))
    as [sx | sx | | sx mx ex]; cbn [SFdiv];
    try (cbn; discriminate);
    destruct (xorb sx s); try reflexivity;
    destruct (getTMin ray) as [| [] | |]; cbn; discriminate.
Qed.

(** C7, on the code.  A horizontal ray ([direction.z = 0]) that starts below
    the ground plane gets [t = +inf]; one that runs inside the plane gets
    [t = NaN].  Neither is below [tMin], so [Ground::intersect] reports a
    hit in both cases. *)
Theorem ground_horizontal_ray_hits :
  vz (getDirection Ex.ray_below) = S754_zero false /\
  fst (Ground.intersect Ex.ground Ex.ray_below Ex.blank) = true /\
  distance (snd (Ground.intersect Ex.ground Ex.ray_below Ex.blank))
  = S754_infinity false /\
  vz (getDirection Ex.ray_inside) = S754_zero false /\
  fst (Ground.intersect Ex.ground Ex.ray_inside Ex.blank) = true /\
  distance (snd (Ground.intersect Ex.ground Ex.ray_inside Ex.blank))
  = S754_nan.
Proof. vm_compute. repeat split. Qed.

(** ** Radiance *)

Section RadianceProps.
Context {Num : Scalar}.
Local Open Scope fl_scope.
Import HypoxRayTracer.
Variables (default_tMin default_tMax : F) (powf : F -> F -> F).
Variable scene : Scene.
Variables (ray : Ray) (interaction : Interaction).

Abbreviation step :=
  (vpl_step default_tMin default_tMax powf scene ray interaction
            (number_of_VPLs scene)).
Abbreviation lit := (unshadowed default_tMin default_tMax scene interaction).
Abbreviation dterm := (diffuse_term scene interaction).
Abbreviation sterm := (specular_term powf scene ray interaction).

(** The shadow ray leaves from the hit position itself; the bias of
    [0.01 * normal] is added to its direction. *)
Lemma shadow_ray_parts (v : VPL) :
  getOrigin (shadow_ray default_tMin default_tMax interaction v)
  = position interaction /\
  getDirection (shadow_ray default_tMin default_tMax interaction v)
  = vadd (light_dir interaction v) (smul lit_0_01 (normal interaction)).
Proof. split; reflexivity. Qed.

(** A shadowed VPL leaves both sums as they are. *)
Lemma shadowed_vpl_contributes_nothing (acc : Vec3 * Vec3) (v : VPL) :
  isShadowed scene (shadow_ray default_tMin default_tMax interaction v)
  = true ->
  step acc v = acc.
Proof. intros H. unfold vpl_step. destruct acc. now rewrite H. Qed.

(** An unshadowed VPL adds its two terms. *)
Lemma unshadowed_vpl_contributes (d s : Vec3) (v : VPL) :
  lit v = true ->
  step (d, s) v = (vadd d (dterm v), vadd s (sterm v)).
Proof.
  unfold unshadowed, vpl_step. intros H.
  apply negb_true_iff in H. now rewrite H.
Qed.

(** The loop over the VPLs computes the two sums over the unshadowed
    ones. *)
Lemma vpl_loop_sums (l : list VPL) (d s : Vec3) :
  fold_left step l (d, s)
  = (fold_left vadd (map dterm (filter lit l)) d,
     fold_left vadd (map sterm (filter lit l)) s).
Proof.
  revert d s. induction l as [| v l IH]; intros d s; [ reflexivity | ].
  cbn [fold_left filter].
  destruct (lit v) eqn:E.
  - rewrite (unshadowed_vpl_contributes _ _ _ E), IH. reflexivity.
  - rewrite shadowed_vpl_contributes_nothing, IH; [ reflexivity | ].
    unfold unshadowed in E. now apply negb_false_iff in E.
Qed.
End RadianceProps.

(** C5. [evalRadiance] returns the colour of the light on a LIGHT hit, and
    otherwise ambient + diffuse + specular, the two sums running over the
    unshadowed VPLs with the terms of the specification. *)
Theorem evalRadiance_words
        {Num : Scalar} (default_tMin default_tMax : F) (powf : F -> F -> F)
        (scene : HypoxRayTracer.Scene) (ray : Ray)
        (interaction : Interaction) :
  HypoxRayTracer.evalRadiance default_tMin default_tMax powf scene ray
                              interaction
  = radiance default_tMin default_tMax powf scene ray interaction.
Proof.
  unfold HypoxRayTracer.evalRadiance, radiance.
  destruct (type interaction); try reflexivity;
    fold (number_of_VPLs scene); rewrite vpl_loop_sums; reflexivity.
Qed.

(** C2, on the code.  For the hit at the origin of a surface facing up and a
    VPL at (3,0,4), the shadow ray starts at the hit position, not at the
    position moved by [0.01 * normal]; the bias sits in its direction, which
    is not [light_dir], normalised or not. *)
Theorem shadow_ray_bias_in_direction :
  let r := HypoxRayTracer.shadow_ray Ex.tmin Ex.tmax Ex.hit_up Ex.vpl_aside in
  let l := HypoxRayTracer.light_dir Ex.hit_up Ex.vpl_aside in
  getOrigin r = position Ex.hit_up /\
  getOrigin r
  <> vadd (position Ex.hit_up) (smul lit_0_01 (normal Ex.hit_up)) /\
  getDirection r = vadd l (smul lit_0_01 (normal Ex.hit_up)) /\
  getDirection r <> l /\
  normalized (getDirection r) <> l.
Proof.
  cbv zeta. split; [ | split; [ | split; [ | split ] ] ].
  - reflexivity.
  - intros H. apply (f_equal vz) in H. vm_compute in H. discriminate H.
  - reflexivity.
  - intros H. apply (f_equal vz) in H. vm_compute in H. discriminate H.
  - intros H. apply (f_equal vz) in H. vm_compute in H. discriminate H.
Qed.

(** ** The render loop *)

(** Occurrences of a number in a list of numbers. *)
Lemma filter_eqb_cons (y x : Z) (l : list Z) :
  length (filter (fun k => (k =? y)%Z) (x :: l))
  = ((if (x =? y)%Z then 1 else 0)
     + length (filter (fun k => (k =? y)%Z) l))%nat.
Proof. cbn [filter]. destruct (x =? y)%Z; reflexivity. Qed.

Lemma occurrences_interval (y : Z) (k a : nat) :
  length (filter (fun x => (x =? y)%Z) (map Z.of_nat (seq a k)))
  = if ((Z.of_nat a <=? y) && (y <? Z.of_nat (a + k)))%Z then 1%nat
    else 0%nat.
Proof.
  revert a. induction k as [| k IH]; intros a.
  - cbn [seq map filter length].
    destruct (Z.leb_spec (Z.of_nat a) y), (Z.ltb_spec y (Z.of_nat (a + 0)));
      cbn [andb]; try reflexivity; lia.
  - cbn [seq map]. rewrite filter_eqb_cons, IH.
    destruct (Z.eqb_spec (Z.of_nat a) y),
             (Z.leb_spec (Z.of_nat (S a)) y),
             (Z.ltb_spec y (Z.of_nat (S a + k))),
             (Z.leb_spec (Z.of_nat a) y),
             (Z.ltb_spec y (Z.of_nat (a + S k)));
      cbn [andb]; try reflexivity; lia.
Qed.

Lemma occurrences_upto (y n : Z) :
  length (filter (fun x => (x =? y)%Z) (HypoxRayTracer.upto n))
  = if ((0 <=? y) && (y <? n))%Z then 1%nat else 0%nat.
Proof.
  unfold HypoxRayTracer.upto. rewrite occurrences_interval.
  cbn [Z.of_nat Nat.add].
  destruct (Z.leb_spec 0 y); cbn [andb]; [ | reflexivity ].
  destruct (Z.ltb_spec y (Z.of_nat (Z.to_nat n))), (Z.ltb_spec y n);
    try reflexivity; lia.
Qed.

Lemma upto_positive (n : Z) :
  (0 < n)%Z ->
  HypoxRayTracer.upto n
  = 0%Z :: map Z.of_nat (seq 1 (Nat.pred (Z.to_nat n))).
Proof.
  intros Hn. unfold HypoxRayTracer.upto.
  destruct (Z.to_nat n) as [| k] eqn:E; [ lia | reflexivity ].
Qed.

Section RenderProps.
Context {Num : Scalar}.
Local Open Scope fl_scope.
Import HypoxRayTracer.
Variables (default_tMin default_tMax : F).
Variable default_interaction : Interaction.
Variable powf : F -> F -> F.
Variable scene : Scene.
Variable camera : Camera.
Variable spp : Z.

Abbreviation pixel :=
  (pixel_value default_tMin default_tMax default_interaction powf scene
               camera spp).
Abbreviation column :=
  (column_writes default_tMin default_tMax default_interaction powf scene
                 camera spp).
Abbreviation the_render :=
  (render default_tMin default_tMax default_interaction powf scene camera
          spp).

Lemma sample_step_cases (c : Vec3) (sp : F * F) :
  sample_step default_tMin default_tMax default_interaction powf scene
              camera c sp
  = if sample_hits default_interaction scene camera sp
    then vadd c (sample_radiance default_tMin default_tMax
                                 default_interaction powf scene camera sp)
    else c.
Proof.
  unfold sample_step, sample_hits, sample_radiance, sample_ray.
  destruct (scene_intersect scene _ default_interaction) as [[] i];
    reflexivity.
Qed.

(** The loop over the samples sums the radiance of those that hit. *)
Lemma sample_loop_sum (l : list (F * F)) (c : Vec3) :
  fold_left (sample_step default_tMin default_tMax default_interaction
                         powf scene camera) l c
  = fold_left vadd
      (map (sample_radiance default_tMin default_tMax default_interaction
                            powf scene camera)
           (filter (sample_hits default_interaction scene camera) l)) c.
Proof.
  revert c. induction l as [| sp l IH]; intros c; [ reflexivity | ].
  cbn [fold_left filter]. rewrite sample_step_cases, IH.
  destruct (sample_hits default_interaction scene camera sp); reflexivity.
Qed.

Hypothesis spp_fits : (- 2 ^ 31 <= spp * spp < 2 ^ 31)%Z.

Lemma int_mul_spp : int_mul spp spp = Some (spp * spp)%Z.
Proof.
  unfold int_mul.
  destruct (Z.leb_spec (- 2 ^ 31) (spp * spp)),
           (Z.ltb_spec (spp * spp) (2 ^ 31)); cbn [andb];
    try reflexivity; lia.
Qed.

Lemma pixel_color_value (dx dy : Z) :
  pixel_color default_tMin default_tMax default_interaction powf scene
              camera spp dx dy
  = Some (pixel dx dy).
Proof.
  unfold pixel_color, pixel_value. rewrite int_mul_spp, sample_loop_sum.
  reflexivity.
Qed.

Lemma render_rows_value (dx : Z) (rows : list Z) :
  render_rows default_tMin default_tMax default_interaction powf scene
              camera spp dx rows
  = Some (map (fun dy => (dx, dy, pixel dx dy)) rows).
Proof.
  induction rows as [| dy rows IH]; [ reflexivity | ].
  cbn [render_rows map]. now rewrite pixel_color_value, IH.
Qed.

Hypothesis wide : (200 <= resolution_x camera)%Z.

Lemma render_column_value (dx : Z) :
  render_column default_tMin default_tMax default_interaction powf scene
                camera spp dx
  = Some (column dx).
Proof.
  unfold render_column, int_rem.
  assert (Hq : (1 <= Z.quot (resolution_x camera) 200)%Z).
  { apply Z.quot_le_lower_bound; lia. }
  destruct (Z.eqb_spec (Z.quot (resolution_x camera) 200) 0); [ lia | ].
  apply render_rows_value.
Qed.

Lemma render_columns_value (cols : list Z) :
  render_columns default_tMin default_tMax default_interaction powf scene
                 camera spp cols
  = Some (flat_map column cols).
Proof.
  induction cols as [| dx cols IH]; [ reflexivity | ].
  cbn [render_columns flat_map]. now rewrite render_column_value, IH.
Qed.

(** On an image at least 200 pixels wide, a run of [render] performs the
    writes of the specification, column after column. *)
Lemma render_wide_value :
  the_render
  = Some (image_writes default_tMin default_tMax default_interaction powf
                       scene camera spp).
Proof. apply render_columns_value. Qed.

Lemma writes_to_column (dx dy dx' : Z) :
  writes_to dx dy (column dx')
  = if (dx' =? dx)%Z
    then length (filter (fun y => (y =? dy)%Z)
                        (upto (resolution_y camera)))
    else 0%nat.
Proof.
  unfold writes_to, column_writes.
  induction (upto (resolution_y camera)) as [| y l IH].
  - destruct (dx' =? dx)%Z; reflexivity.
  - cbn [map filter fst snd]. destruct (dx' =? dx)%Z eqn:E; cbn [andb].
    + destruct (y =? dy)%Z; cbn [length]; now rewrite IH.
    + exact IH.
Qed.

Lemma writes_to_app (dx dy : Z) (a b : list PixelWrite) :
  writes_to dx dy (a ++ b) = (writes_to dx dy a + writes_to dx dy b)%nat.
Proof. unfold writes_to. now rewrite filter_app, length_app. Qed.

Lemma writes_to_columns (dx dy : Z) (cols : list Z) :
  writes_to dx dy (flat_map column cols)
  = (length (filter (fun x => (x =? dx)%Z) cols)
     * length (filter (fun y => (y =? dy)%Z)
                      (upto (resolution_y camera))))%nat.
Proof.
  induction cols as [| x cols IH]; [ reflexivity | ].
  cbn [flat_map].
  rewrite writes_to_app, writes_to_column, IH, filter_eqb_cons.
  destruct (x =? dx)%Z; lia.
Qed.

(** On such an image every pixel is written exactly once, with the sum of
    the radiance of the samples that hit, divided by [spp * spp]. *)
Lemma render_wide_each_pixel_once :
  exists ws,
    the_render = Some ws /\
    (forall dx dy,
        (0 <= dx < resolution_x camera)%Z ->
        (0 <= dy < resolution_y camera)%Z ->
        writes_to dx dy ws = 1%nat /\ In (dx, dy, pixel dx dy) ws) /\
    (forall w, In w ws -> snd w = pixel (fst (fst w)) (snd (fst w))).
Proof.
  eexists. split; [ apply render_wide_value | split ].
  - intros dx dy Hx Hy. split.
    + unfold image_writes. rewrite writes_to_columns, !occurrences_upto.
      destruct (Z.leb_spec 0 dx), (Z.ltb_spec dx (resolution_x camera)),
               (Z.leb_spec 0 dy), (Z.ltb_spec dy (resolution_y camera));
        cbn [andb]; try reflexivity; lia.
    + unfold image_writes. apply in_flat_map. exists dx. split.
      * unfold upto. apply in_map_iff. exists (Z.to_nat dx).
        split; [ lia | apply in_seq; lia ].
      * unfold column_writes. apply in_map_iff. exists dy.
        split; [ reflexivity | ].
        unfold upto. apply in_map_iff. exists (Z.to_nat dy).
        split; [ lia | apply in_seq; lia ].
  - intros w Hw. unfold image_writes in Hw.
    apply in_flat_map in Hw. destruct Hw as (dx & _ & Hw).
    unfold column_writes in Hw. apply in_map_iff in Hw.
    destruct Hw as (dy & <- & _). reflexivity.
Qed.
End RenderProps.

Section RenderNarrow.
Context {Num : Scalar}.
Import HypoxRayTracer.
Variables (default_tMin default_tMax : F).
Variable default_interaction : Interaction.
Variable powf : F -> F -> F.
Variable scene : Scene.
Variable camera : Camera.
Variable spp : Z.

(** On an image between 1 and 199 pixels wide the progress test of the
    first column takes a remainder by [resolution.x() / 200 = 0]. *)
Lemma render_narrow_undefined :
  (0 < resolution_x camera < 200)%Z ->
  render default_tMin default_tMax default_interaction powf scene camera
         spp
  = None.
Proof.
  intros Hw. unfold render. rewrite upto_positive by lia.
  cbn [render_columns]. unfold render_column, int_rem.
  rewrite Z.quot_small by lia. reflexivity.
Qed.
End RenderNarrow.

(** C6, on the code.  For an image of 100 by 100 pixels [render] writes no
    pixel at all: the progress test [dx % (resolution.x() / 200)] of the
    first column is a remainder by zero. *)
Theorem render_narrow_image_undefined :
  HypoxRayTracer.render Ex.tmin Ex.tmax Ex.blank Ex.powf_unreached
                        (Ex.dark_scene Ex.hit_up) (Ex.camera 100 100) 1
  = None.
Proof. apply render_narrow_undefined. vm_compute. split; reflexivity. Qed.

(** ** A scene without light *)

Lemma all_from_spec (f : Z -> bool) (n : nat) (a : Z) :
  all_from f a n = true ->
  forall z, (a <= z < a + Z.of_nat n)%Z -> f z = true.
Proof.
  revert a. induction n as [| k IH]; intros a H z Hz; [ lia | ].
  cbn [all_from] in H. apply andb_true_iff in H. destruct H as [Ha Hr].
  destruct (Z.eq_dec z a) as [-> | Hne]; [ exact Ha | ].
  apply (IH _ Hr). lia.
Qed.

(** Every square that fits an [int] converts to a positive
    single-precision number. *)
Lemma squares_convert_positive :
  all_from (fun s => b32_positive (b32_of_int (s * s))) 1 (Z.to_nat 46340)
  = true.
Proof. vm_compute. reflexivity. Qed.

Lemma square_converts_positive (s : Z) :
  s <> 0%Z -> (s * s < 2 ^ 31)%Z ->
  b32_positive (b32_of_int (s * s)) = true.
Proof.
  intros Hs Hb.
  replace (s * s)%Z with (Z.abs s * Z.abs s)%Z by lia.
  apply (@all_from_spec _ _ _ squares_convert_positive).
  rewrite Z2Nat.id by lia. split; [ lia | ].
  destruct (Z_le_gt_dec (Z.abs s) 46340) as [Hle | Hgt]; [ lia | ].
  assert (46341 * 46341 <= Z.abs s * Z.abs s)%Z by nia. lia.
Qed.

Section Black.
Import HypoxRayTracer.
Local Open Scope fl_scope.

Lemma b32_i0 : @i0 binary32 = S754_zero false.
Proof. reflexivity. Qed.

(** A number times a zero is a zero. *)
Lemma b32_mul_zero (x y : spec_float) :
  b32_finite x = true -> b32_is_zero y = true ->
  b32_is_zero (SFmul 24 128 x y) = true.
Proof. destruct x, y; cbn; intros; congruence. Qed.

(** A zero plus [+0] is [+0]. *)
Lemma b32_add_zero (x : spec_float) :
  b32_is_zero x = true ->
  SFadd 24 128 x (S754_zero false) = S754_zero false.
Proof. destruct x as [[]| | |]; cbn; intros; congruence. Qed.

(** [+0] over a positive number is [+0]. *)
Lemma b32_zero_div (y : spec_float) :
  b32_positive y = true ->
  SFdiv 24 128 (S754_zero false) y = S754_zero false.
Proof. destruct y as [| | |[]]; cbn; intros; congruence. Qed.

Lemma vadd_vzero_vzero : vadd (@vzero binary32) vzero = vzero.
Proof. reflexivity. Qed.

Lemma vsum_all_black (l : list (@Vec3 binary32)) :
  (forall c, In c l -> c = vzero) -> vsum l = vzero.
Proof.
  unfold vsum. induction l as [| c l IH]; intros H; [ reflexivity | ].
  cbn [fold_left]. rewrite (H c (or_introl eq_refl)), vadd_vzero_vzero.
  apply IH. intros c' Hc'. apply H. now right.
Qed.

Variables (default_tMin default_tMax : @F binary32).
Variable default_interaction : @Interaction binary32.
Variable powf : @F binary32 -> @F binary32 -> @F binary32.
Variable scene : @Scene binary32.

Hypothesis no_vpls : getVPLs scene = [].
Hypothesis no_ambient : zero3 (getAmbientLight scene).

(** Without VPLs and ambient light, a hit that is not the light and whose
    ambient reflectance is a number has radiance (0,0,0). *)
Lemma dark_radiance (ray : Ray) (i : Interaction) :
  type i <> LIGHT -> finite3 (Ambient (matmodel i)) ->
  evalRadiance default_tMin default_tMax powf scene ray i = vzero.
Proof.
  intros Ht (Hx & Hy & Hz). destruct no_ambient as (Lx & Ly & Lz).
  unfold evalRadiance. rewrite no_vpls. cbn [fold_left length].
  assert (E : vadd (vadd (cwiseProduct (Ambient (matmodel i))
                                       (getAmbientLight scene))
                         vzero) vzero = @vzero binary32).
  { unfold vadd, cwiseProduct, vzero; cbn [vx vy vz].
    rewrite b32_i0. cbn [add mul binary32].
    rewrite !(@b32_add_zero _ (@b32_mul_zero _ _ Hx Lx)).
    rewrite !(@b32_add_zero _ (@b32_mul_zero _ _ Hy Ly)).
    rewrite !(@b32_add_zero _ (@b32_mul_zero _ _ Hz Lz)).
    reflexivity. }
  destruct (type i); [ exact E | congruence | exact E ].
Qed.
End Black.

(** C8, as amended.  Take a scene whose light has no VPLs and whose ambient
    light is (0,0,0), in which no camera ray sees the light itself and every
    hit of a camera ray carries an ambient reflectance that is a number.  With [spp] not
    zero and [spp * spp] within [int], on an image at least 200 pixels wide,
    [render] writes every pixel exactly once, and every pixel written is
    (0,0,0). *)
Theorem dark_scene_renders_black
        (default_tMin default_tMax : @F binary32)
        (default_interaction : @Interaction binary32)
        (powf : @F binary32 -> @F binary32 -> @F binary32)
        (scene : @HypoxRayTracer.Scene binary32)
        (camera : @HypoxRayTracer.Camera binary32) (spp : Z) :
  HypoxRayTracer.getVPLs scene = [] ->
  zero3 (HypoxRayTracer.getAmbientLight scene) ->
  (forall x y i,
      HypoxRayTracer.scene_intersect
        scene (HypoxRayTracer.generateRay camera x y) default_interaction
      = (true, i) ->
      type i <> LIGHT /\ finite3 (Ambient (matmodel i))) ->
  (200 <= HypoxRayTracer.resolution_x camera)%Z ->
  spp <> 0%Z -> (spp * spp < 2 ^ 31)%Z ->
  let run := HypoxRayTracer.render default_tMin default_tMax
               default_interaction powf scene camera spp in
  (exists ws,
      run = Some ws /\
      forall dx dy,
        (0 <= dx < HypoxRayTracer.resolution_x camera)%Z ->
        (0 <= dy < HypoxRayTracer.resolution_y camera)%Z ->
        writes_to dx dy ws = 1%nat) /\
  renders_black run.
Proof.
  intros Hv Ha Hhit Hw Hs Hb run.
  assert (Hfit : (- 2 ^ 31 <= spp * spp < 2 ^ 31)%Z) by nia.
  destruct (@render_wide_each_pixel_once binary32 default_tMin default_tMax
              default_interaction powf scene camera spp Hfit Hw)
    as (ws & Hrun & Honce & Hval).
  split.
  - exists ws. split; [ exact Hrun | ]. intros dx dy Hx Hy.
    now apply Honce.
  - intros ws' Hrun' w Hin. unfold run in Hrun'.
    rewrite Hrun in Hrun'. injection Hrun' as <-.
    rewrite (Hval w Hin). unfold pixel_value.
    rewrite vsum_all_black.
    + pose proof (square_converts_positive Hs Hb) as Hp.
      unfold vdivs, vzero; cbn [vx vy vz]. rewrite b32_i0.
      cbn [div of_int binary32]. now rewrite !(@b32_zero_div _ Hp).
    + intros c Hc. apply in_map_iff in Hc. destruct Hc as (sp & <- & Hsp).
      apply filter_In in Hsp. destruct Hsp as [_ Hsp].
      unfold sample_hits in Hsp. unfold sample_radiance.
      destruct (HypoxRayTracer.scene_intersect scene
                  (sample_ray camera sp) default_interaction)
        as [hit i] eqn:E.
      cbn [fst snd] in *. subst hit.
      destruct (Hhit _ _ _ E) as [Ht Hf].
      now apply dark_radiance.
Qed.

Lemma dark_scene_renders_black_witness :
  renders_black
    (HypoxRayTracer.render Ex.tmin Ex.tmax Ex.blank Ex.powf_unreached
                           (Ex.dark_scene Ex.hit_up) (Ex.camera 200 2) 2).
Proof.
  apply (dark_scene_renders_black Ex.tmin Ex.tmax Ex.blank Ex.powf_unreached
           (Ex.dark_scene Ex.hit_up) (Ex.camera 200 2) (spp := 2)).
  - reflexivity.
  - vm_compute. repeat split.
  - intros x y i H. injection H as <-. vm_compute.
    repeat split; discriminate.
  - vm_compute. discriminate.
  - discriminate.
  - reflexivity.
Defined.

(** C8, as stated, fails.  Three scenes without VPLs and without ambient
    light, rendered on an image of 200 by 1 pixels.  In the first every
    camera ray sees the light, and the pixels take the colour of the light.
    In the second the surface seen has an infinite ambient reflectance, and
    [inf * 0] is NaN.  In the third [spp] is zero, and [0 / 0] is NaN. *)
Lemma dark_scene_not_black :
  HypoxRayTracer.getVPLs (Ex.dark_scene Ex.sees_light) = [] /\
  HypoxRayTracer.getAmbientLight (Ex.dark_scene Ex.sees_light) = vzero /\
  ~ renders_black
      (HypoxRayTracer.render Ex.tmin Ex.tmax Ex.blank Ex.powf_unreached
         (Ex.dark_scene Ex.sees_light) (Ex.camera 200 1) 1) /\
  ~ renders_black
      (HypoxRayTracer.render Ex.tmin Ex.tmax Ex.blank Ex.powf_unreached
         (Ex.dark_scene Ex.sees_glare) (Ex.camera 200 1) 1) /\
  ~ renders_black
      (HypoxRayTracer.render Ex.tmin Ex.tmax Ex.blank Ex.powf_unreached
         (Ex.dark_scene Ex.hit_up) (Ex.camera 200 1) 0).
Proof.
  split; [ reflexivity | split; [ reflexivity | ] ].
  assert (R : forall (run : option (list (@HypoxRayTracer.PixelWrite
                                            binary32)))
                    (x : spec_float),
             match run with
             | Some (w :: _) => vx (snd w) = x
             | _ => False
             end ->
             b32_is_zero x = false -> ~ renders_black run).
  { intros run x Hrun Hx Hb. destruct run as [[| w ws] |]; try easy.
    rewrite <- Hrun, (Hb (w :: ws) eq_refl w (or_introl eq_refl)) in Hx.
    discriminate Hx. }
  split; [ | split ].
  - apply (R _ Ex.one); vm_compute; reflexivity.
  - apply (R _ S754_nan); vm_compute; reflexivity.
  - apply (R _ S754_nan); vm_compute; reflexivity.
Qed.

(** ** Normals *)

(** Whatever the arithmetic, a hit is classified GEOMETRY. *)
Section HitType.
Context {Num : Scalar}.
Variable EPS : F.
Variables (ray : Ray) (interaction : Interaction).




End HitType.

(** In exact arithmetic, normalising a vector that is not zero gives a
    vector of length one. *)
Section ExactVectors.
Local Open Scope R_scope.


Lemma exact_squaredNorm (v : @Vec3 exact) :
  squaredNorm v = vx v * vx v + vy v * vy v + vz v * vz v.
Proof. reflexivity. Qed.



(** The normal of the ground, (0,0,1), has length one. *)
Lemma exact_up_unit : unit_vector (@mkVec3 exact i0 i0 i1).
Proof.
  unfold unit_vector, norm. rewrite exact_squaredNorm. cbn [vx vy vz].
  change (@fsqrt exact) with sqrt. change (@i1 exact) with 1.
  change (@i0 exact) with 0.
  replace (0 * 0 + 0 * 0 + 1 * 1) with 1 by ring. apply sqrt_1.
Qed.

End ExactVectors.

(** ** Exact arithmetic: the ellipsoid *)

Section ExactMatrices.
Local Open Scope R_scope.


Lemma exact_det4_block (m : @Mat exact) :
m 3%nat 0%nat = 0 -> m 3%nat 1%nat = 0 -> m 3%nat 2%nat = 0 ->
m 3%nat 3%nat = 1 -> det4 m = det3 m.
Proof.
intros H0 H1 H2 H3.
unfold det4, det3, adjugate4, cofactor_4x4, cofactor_3x3, general_det3_helper.
cbn. rewrite H0, H1, H2, H3. ring.
Qed.

Lemma exact_transform_last_row (e : @Ellipsoid.t exact) :
Ellipsoid.transform e 3%nat 0%nat = 0 /\
Ellipsoid.transform e 3%nat 1%nat = 0 /\
Ellipsoid.transform e 3%nat 2%nat = 0 /\
Ellipsoid.transform e 3%nat 3%nat = 1.
Proof.
unfold Ellipsoid.transform, mat4_mul, mat_of_rows. cbn [nth].
change (@i1 exact) with 1. change (@i0 exact) with 0.
change (@add exact) with Rplus. change (@mul exact) with Rmult.
change (@F exact) with R. split; [ | split; [ | split ] ]; ring.
Qed.


(** The 4x4 inverse is an inverse (sanity of the cofactor model). *)
Lemma exact_inverse4_cancel (m : @Mat exact) (i j : nat) :
det4 m <> 0 -> (i < 4)%nat -> (j < 4)%nat ->
mat4_mul (inverse4 m) m i j = if Nat.eqb i j then 1 else 0.
Proof.
intros Hd Hi Hj.
unfold det4, adjugate4, cofactor_4x4, general_det3_helper in Hd; cbn in Hd.
destruct i as [|[|[|[|i]]]]; try lia;
destruct j as [|[|[|[|j]]]]; try lia;
unfold mat4_mul, inverse4, det4, adjugate4, cofactor_4x4, general_det3_helper; cbn;
field; exact Hd.
Qed.

(** A root of the quadratic puts the ray on the unit sphere. *)
Lemma exact_root_on_sphere (o d : @Vec3 exact) (t : R) :
let A : R := dot d d in
let B := 2 * dot o d in
let C := dot o o - 1 * 1 in
let D := B * B - 4 * A * C in
0 < D ->
t = (- B - sqrt D) / (2 * A) \/ t = (- B + sqrt D) / (2 * A) ->
squaredNorm (vadd o (@smul exact t d)) = 1.
Proof.
intros A B C D HD Ht.
assert (HA : A <> 0).
{ intros HA0. unfold A, dot in HA0. real_ops.
  assert (vx d = 0 /\ vy d = 0 /\ vz d = 0) as (Hx & Hy & Hz)
      by (repeat split; nra).
  unfold D, B, A, C, dot in HD. real_ops. rewrite Hx, Hy, Hz in HD. lra. }
pose proof (sqrt_sqrt D (Rlt_le _ _ HD)) as Hs.
set (s := sqrt D) in *.
assert (Hq : A * t * t + B * t + C = 0).
{ assert (H2 : (2 * A * t + B) * (2 * A * t + B) = D).
  { destruct Ht as [-> | ->].
    - replace (2 * A * ((- B - s) / (2 * A)) + B) with (- s)
        by (field; exact HA).
      rewrite <- Hs. ring.
    - replace (2 * A * ((- B + s) / (2 * A)) + B) with s
        by (field; exact HA).
      exact Hs. }
  unfold D in H2.
  assert (H4 : 4 * A * (A * t * t + B * t + C) = 0) by lra.
  apply Rmult_integral in H4. destruct H4 as [H4 | H4]; [ lra | exact H4 ]. }
replace (squaredNorm (vadd o (@smul exact t d))) with (A * t * t + B * t + C + 1).
- lra.
- unfold A, B, C, squaredNorm, dot, vadd, smul; cbn [vx vy vz]. real_ops. ring.
Qed.

Lemma select_root_one_of {Num : Scalar} (t1 t2 t : F) :
Ellipsoid.select_root t1 t2 = Some t -> t = t1 \/ t = t2.
Proof.
unfold Ellipsoid.select_root, fmin.
destruct (ltb i0 t1), (ltb i0 t2); cbn [andb];
  try destruct (ltb t2 t1); intros H; inversion H; auto.
Qed.


End ExactMatrices.

(** ** The normal written by a hit *)

Section ExactNormals.
Local Open Scope R_scope.
Variable EPS : R.
Hypothesis EPS_nonneg : 0 <= EPS.
Variables (ray : @Ray exact) (interaction : @Interaction exact).




End ExactNormals.

(** The examples in exact arithmetic: the ray from (1/4, 1/4, 1) straight
    down meets the triangle at distance one, whatever normal is stored. *)
Lemma exact_example_triangle_hit (n : @Vec3 exact) (i : @Interaction exact) :
  fst (Triangle.intersect
         (Triangle.make ExR.o3 (ExR.vec 1 0 0) (ExR.vec 0 1 0) n ExR.matte)
         ExR.ray_tri i) = true.
Proof.
  match goal with
  | |- fst (Triangle.intersect ?tri ?ray ?i) = true =>
      destruct (triangle_intersect_cases tri ray i) as [[_ ->] | [Hm _]];
        [ reflexivity | exfalso; apply Hm ]
  end.
  unfold mt_hit, mt_t, mt_u, mt_v, mt_scale, mt_s1, mt_s2, mt_s, mt_e1, mt_e2,
    dot, cross, vsub; cbn. real_ops.
  rewrite !Rleb_true.
  replace (1 / ((0 * 0 - -1 * (1 - 0)) * (1 - 0) + (-1 * (0 - 0) - 0 * 0) * (0 - 0)
                + (0 * (1 - 0) - 0 * (0 - 0)) * (0 - 0)))%R with 1%R
    by (field; lra).
  repeat split; lra.
Qed.

Lemma exact_example_ground_hit :
  fst (Ground.intersect ExR.ground ExR.ray_down ExR.blank) = true.
Proof.
  destruct (ground_intersect_cases ExR.ray_down ExR.blank ExR.ground)
    as [[-> _] | H]; [ reflexivity | exfalso ].
  unfold Ground.intersect in H. cbn in H.
  replace (Rltb ((0 - 1) / -1) (1 / 1024)) with false in H;
    [ discriminate H | ].
  symmetry. apply Rltb_false. lra.
Qed.


(** * Further properties *)

(** ** Loading a mesh *)

Section MeshProps.
Context {Num : Scalar}.
Import Mesh.

(** Lists, three elements at a time. *)
Lemma list_ind3 (A : Type) (P : list A -> Prop) :
  P [] -> (forall x, P [x]) -> (forall x y, P [x; y]) ->
  (forall x y z l, P l -> P (x :: y :: z :: l)) ->
  forall l, P l.
Proof.
  intros H0 H1 H2 H3.
  assert (H : forall l, P l /\ (forall x, P (x :: l))
                        /\ (forall x y, P (x :: y :: l))).
  { induction l as [| a l (IH0 & IH1 & IH2)].
    - repeat split; auto.
    - repeat split; auto. }
  intros l. apply H.
Qed.

Lemma group3_flatten3 (vs : list Vec3) : group3 (flatten3 vs) = Some vs.
Proof.
  induction vs as [| v vs IH]; [ reflexivity | ].
  cbn [flatten3 flat_map app group3]. fold (flatten3 vs).
  rewrite IH. now destruct v.
Qed.

Lemma group3_some (a : list F) (vs : list Vec3) :
  group3 a = Some vs ->
  flatten3 vs = a /\ length a = (3 * length vs)%nat.
Proof.
  revert vs. induction a as [| x | x y | x y z a IH] using list_ind3;
    intros vs H; cbn [group3] in H; try discriminate H.
  - injection H as <-. now split.
  - destruct (group3 a) as [out |]; [ | discriminate H ].
    injection H as <-. destruct (IH out eq_refl) as [Hf Hl].
    cbn [flatten3 flat_map app length vx vy vz]. fold (flatten3 out).
    rewrite Hf, Hl. split; [ reflexivity | lia ].
Qed.

Lemma group3_none (a : list F) :
  group3 a = None <-> (length a mod 3 <> 0)%nat.
Proof.
  induction a as [| x | x y | x y z a IH] using list_ind3; cbn [group3].
  - split; [ discriminate | intros H; now elim H ].
  - split; [ intros _; cbn; discriminate | reflexivity ].
  - split; [ intros _; cbn; discriminate | reflexivity ].
  - replace (length (x :: y :: z :: a)) with (length a + 1 * 3)%nat
      by (cbn [length]; lia).
    rewrite Nat.Div0.mod_add.
    destruct (group3 a) as [out |].
    + split; [ discriminate | ]. intros H. apply IH in H. discriminate H.
    + split; [ intros _; now apply IH | reflexivity ].
Qed.

Lemma skipn_nth_error (A : Type) (l : list A) (n : nat) (x : A) :
  nth_error l n = Some x -> skipn n l = x :: skipn (S n) l.
Proof.
  revert l. induction n as [| n IH]; intros [| a l] H; cbn in H;
    try discriminate H.
  - now injection H as ->.
  - apply IH in H. exact H.
Qed.

Lemma read_face_fits (idx : list index_t) (off fv : nat) :
  (off + fv <= length idx)%nat ->
  read_face idx off fv = Some (firstn fv (skipn off idx)).
Proof.
  revert off. induction fv as [| k IH]; intros off H; [ reflexivity | ].
  cbn [read_face].
  destruct (nth_error idx off) as [i |] eqn:E.
  - rewrite IH by lia. now rewrite (skipn_nth_error _ _ E).
  - apply nth_error_None in E. lia.
Qed.

Lemma read_face_overruns (idx : list index_t) (off fv : nat) :
  (length idx < off + fv)%nat -> (off <= length idx)%nat ->
  read_face idx off fv = None.
Proof.
  revert off. induction fv as [| k IH]; intros off H Ho; [ lia | ].
  cbn [read_face].
  destruct (nth_error idx off) as [i |] eqn:E; [ | reflexivity ].
  assert (off < length idx)%nat
    by (apply nth_error_Some; rewrite E; discriminate).
  now rewrite IH by lia.
Qed.

Lemma firstn_plus (A : Type) (n m : nat) (l : list A) :
  firstn (n + m) l = firstn n l ++ firstn m (skipn n l).
Proof.
  revert l. induction n as [| n IH]; intros [| a l]; cbn;
    try reflexivity.
  - now rewrite firstn_nil.
  - now rewrite IH.
Qed.

Lemma read_faces_fits (idx : list index_t) (faces : list nat) (off : nat) :
  (off + face_total faces <= length idx)%nat ->
  read_faces idx off faces
  = Some (firstn (face_total faces) (skipn off idx)).
Proof.
  revert off. induction faces as [| fv faces IH]; intros off H;
    [ reflexivity | ].
  cbn [read_faces face_total fold_right] in *. fold (face_total faces) in *.
  rewrite read_face_fits by lia. rewrite IH by lia.
  rewrite firstn_plus, skipn_skipn.
  now replace (fv + off)%nat with (off + fv)%nat by lia.
Qed.

Lemma read_faces_overruns (idx : list index_t) (faces : list nat)
      (off : nat) :
  (length idx < off + face_total faces)%nat ->
  (off <= length idx)%nat ->
  read_faces idx off faces = None.
Proof.
  revert off. induction faces as [| fv faces IH]; intros off H Ho;
    cbn [read_faces face_total fold_right] in *; [ lia | ].
  fold (face_total faces) in *.
  destruct (Nat.le_gt_cases (off + fv) (length idx)) as [Hfit | Hover].
  - rewrite read_face_fits by exact Hfit. now rewrite IH by lia.
  - now rewrite read_face_overruns by lia.
Qed.

Lemma read_shapes_some (shapes : list shape_t) (out : list index_t) :
  read_shapes shapes = Some out ->
  out = flat_map shape_indices shapes /\
  forall s, In s shapes -> ~ overrun s.
Proof.
  revert out. induction shapes as [| s shapes IH]; intros out H;
    cbn [read_shapes] in H.
  - injection H as <-. split; [ reflexivity | intros s [] ].
  - destruct (Nat.le_gt_cases (face_total (num_face_vertices s))
                              (length (indices s))) as [Hfit | Hover].
    + rewrite read_faces_fits in H by exact Hfit. cbn [skipn] in H.
      destruct (read_shapes shapes) as [out' |]; [ | discriminate H ].
      injection H as <-. destruct (IH out' eq_refl) as [-> Hall].
      split; [ reflexivity | ].
      intros s' [<- | Hin]; [ unfold overrun; lia | now apply Hall ].
    + rewrite read_faces_overruns in H by (cbn; lia). discriminate H.
Qed.

Lemma read_shapes_none (shapes : list shape_t) :
  read_shapes shapes = None <-> exists s, In s shapes /\ overrun s.
Proof.
  induction shapes as [| s shapes IH]; cbn [read_shapes].
  - split; [ discriminate | intros (s & [] & _) ].
  - destruct (Nat.le_gt_cases (face_total (num_face_vertices s))
                              (length (indices s))) as [Hfit | Hover].
    + rewrite read_faces_fits by exact Hfit.
      destruct (read_shapes shapes) as [out' |].
      * split; [ discriminate | ].
        intros (s' & [<- | Hin] & Hs'); [ unfold overrun in Hs'; lia | ].
        assert (H : Some out' = None) by (apply IH; now exists s').
        discriminate H.
      * split; [ intros _ | reflexivity ].
        destruct (proj1 IH eq_refl) as (s' & Hin & Hs').
        exists s'. split; [ now right | exact Hs' ].
    + rewrite read_faces_overruns by (cbn; lia).
      split; [ intros _ | reflexivity ].
      exists s. split; [ now left | exact Hover ].
Qed.
End MeshProps.

(** X1. When [Mesh::loadObj] gets through, the points it has built list the
    coordinate arrays of the file three by three (so it prints a third of
    their lengths), and the two index vectors hold, shape after shape, the
    vertex and normal indices of the records that belong to the faces: they
    have the same length. *)
Theorem mesh_load_result
        {Num : Scalar} (attrib : Mesh.attrib_t) (shapes : list Mesh.shape_t)
        (vs ns : list Vec3) (v_indices n_indices : list Z) :
  Mesh.loadObj (Some (attrib, shapes)) = Mesh.Loaded vs ns v_indices n_indices ->
  Mesh.flatten3 vs = Mesh.vertices attrib /\
  Mesh.flatten3 ns = Mesh.normals attrib /\
  length (Mesh.vertices attrib) = (3 * length vs)%nat /\
  length (Mesh.normals attrib) = (3 * length ns)%nat /\
  v_indices
  = map Mesh.vertex_index (flat_map Mesh.shape_indices shapes) /\
  n_indices
  = map Mesh.normal_index (flat_map Mesh.shape_indices shapes) /\
  length v_indices = length n_indices.
Proof.
  unfold Mesh.loadObj.
  destruct (Mesh.group3 (Mesh.vertices attrib)) as [vs' |] eqn:Ev;
    [ | discriminate ].
  destruct (Mesh.group3 (Mesh.normals attrib)) as [ns' |] eqn:En;
    [ | discriminate ].
  destruct (Mesh.read_shapes shapes) as [idx |] eqn:Ei; [ | discriminate ].
  intros H. injection H as <- <- <- <-.
  destruct (group3_some _ Ev) as [Hv Hlv].
  destruct (group3_some _ En) as [Hn Hln].
  destruct (read_shapes_some _ Ei) as [-> _].
  repeat split; try assumption. now rewrite !length_map.
Qed.

Lemma mesh_load_result_witness :
  Mesh.loadObj (Some (ExT.attrib, [ExT.shape]))
  = Mesh.Loaded [Ex.vec Ex.zero Ex.zero Ex.zero; Ex.vec Ex.one Ex.zero Ex.zero]
                [Ex.vec Ex.zero Ex.zero Ex.one] [0%Z; 1%Z; 0%Z] [0%Z; 0%Z; 0%Z]
  /\ length [0%Z; 1%Z; 0%Z] = length [0%Z; 0%Z; 0%Z].
Proof.
  assert (H : Mesh.loadObj (Some (ExT.attrib, [ExT.shape]))
              = Mesh.Loaded
                  [Ex.vec Ex.zero Ex.zero Ex.zero;
                   Ex.vec Ex.one Ex.zero Ex.zero]
                  [Ex.vec Ex.zero Ex.zero Ex.one]
                  [0%Z; 1%Z; 0%Z] [0%Z; 0%Z; 0%Z]) by reflexivity.
  split; [ exact H | ].
  exact (proj2 (proj2 (proj2 (proj2 (proj2 (proj2
           (@mesh_load_result binary32 ExT.attrib [ExT.shape] _ _ _ _ H))))))).
Defined.

(** X2. Given a parsed file, [Mesh::loadObj] reads past the end of a vector
    exactly when a coordinate array has a length that is not a multiple of
    three, or some shape has faces that ask for more index records than the
    shape holds. *)
Theorem mesh_load_undefined
        {Num : Scalar} (attrib : Mesh.attrib_t) (shapes : list Mesh.shape_t) :
  Mesh.loadObj (Some (attrib, shapes)) = Mesh.Undefined <->
  (length (Mesh.vertices attrib) mod 3 <> 0)%nat \/
  (length (Mesh.normals attrib) mod 3 <> 0)%nat \/
  (exists s, In s shapes /\ Mesh.overrun s).
Proof.
  unfold Mesh.loadObj.
  pose proof (group3_none (Mesh.vertices attrib)) as Hv.
  pose proof (group3_none (Mesh.normals attrib)) as Hn.
  pose proof (read_shapes_none shapes) as Hs.
  destruct (Mesh.group3 (Mesh.vertices attrib)) as [vs |];
    [ | split; [ intros _; left; now apply Hv | reflexivity ] ].
  destruct (Mesh.group3 (Mesh.normals attrib)) as [ns |];
    [ | split; [ intros _; right; left; now apply Hn | reflexivity ] ].
  destruct (Mesh.read_shapes shapes) as [idx |];
    [ | split; [ intros _; right; right; now apply Hs | reflexivity ] ].
  split; [ discriminate | ].
  intros [H | [H | H]]; [ apply Hv in H | apply Hn in H | apply Hs in H ];
    discriminate H.
Qed.

(** ** Where a hit lies (exact arithmetic) *)

Section ExactHits.
Local Open Scope R_scope.

(** Cramer's rule behind Moller-Trumbore: with a determinant that is not
    zero, the point of the ray at [t] is [v0 + u e1 + v e2]. *)
Lemma exact_moller_trumbore (tri : @Triangle.t exact) (ray : @Ray exact) :
  dot (mt_s1 tri ray) (mt_e1 tri) <> 0 ->
  ray_at ray (mt_t tri ray)
  = vadd (Triangle.v0 tri)
         (vadd (@smul exact (mt_u tri ray) (mt_e1 tri))
               (@smul exact (mt_v tri ray) (mt_e2 tri))).
Proof.
  intros Hd.
  unfold mt_s1, mt_e1, mt_e2, dot, cross, vsub in Hd; cbn [vx vy vz] in Hd.
  real_ops.
  apply vec3_ext;
    unfold ray_at, mt_t, mt_u, mt_v, mt_scale, mt_s1, mt_s2, mt_s, mt_e1,
      mt_e2, dot, cross, vsub, vadd, smul; cbn [vx vy vz]; real_ops;
    field; exact Hd.
Qed.

(** The two exits of [Rectangle::intersect], with everything its tests
    establish on a hit. *)
Lemma exact_rectangle_hit (EPS : R) (rect : @Rectangle.t exact)
      (ray : @Ray exact) (interaction : @Interaction exact) :
  fst (@Rectangle.intersect exact EPS rect ray interaction) = true ->
  let dn := dot (getDirection ray) (Rectangle.normal rect) in
  let t := dot (vsub (Rectangle.position rect) (getOrigin ray))
               (Rectangle.normal rect) / dn in
  let q := vsub (ray_at ray t) (Rectangle.position rect) in
  EPS < Rabs dn /\
  distance (snd (@Rectangle.intersect exact EPS rect ray interaction)) = t /\
  position (snd (@Rectangle.intersect exact EPS rect ray interaction))
  = ray_at ray t /\
  0 <= t /\
  - Rectangle.size_x rect / 2
  <= dot q (normalized (Rectangle.tangent rect))
  <= Rectangle.size_x rect / 2 /\
  - Rectangle.size_y rect / 2
  <= dot q (normalized (cross (Rectangle.normal rect)
                              (Rectangle.tangent rect)))
  <= Rectangle.size_y rect / 2.
Proof.
  unfold Rectangle.intersect.
  destruct (leb (fabs (dot (getDirection ray) (Rectangle.normal rect))) EPS)
    eqn:Hp; [ discriminate | ].
  match goal with
  | |- fst (if ?c then _ else _) = true -> _ => destruct c eqn:Hc
  end; [ intros _ | discriminate ].
  cbv zeta. cbn [fst snd]. rewrite fill_distance, fill_position.
  repeat (apply andb_true_iff in Hc; destruct Hc as [Hc ?]).
  real_ops.
  repeat match goal with
         | H : Rleb _ _ = true |- _ => apply Rleb_true in H
         | H : Rleb _ _ = false |- _ => apply Rleb_false in H
         end.
  repeat split; assumption.
Qed.
End ExactHits.

(** X3. In exact arithmetic, when the determinant [s1.e1] is not zero (the
    triangle is not degenerate and the ray does not run along its plane), a
    hit of [Triangle::intersect] records a point of the triangle: the
    position is [v0 + u (v1 - v0) + v (v2 - v0)] with [u, v >= 0] and
    [u + v <= 1], and it is the point of the ray at the recorded distance. *)
Theorem triangle_hit_in_triangle
        (tri : @Triangle.t exact) (ray : @Ray exact)
        (interaction : @Interaction exact) :
  dot (mt_s1 tri ray) (mt_e1 tri) <> 0%R ->
  fst (Triangle.intersect tri ray interaction) = true ->
  let hit := snd (Triangle.intersect tri ray interaction) in
  position hit = ray_at ray (distance hit) /\
  exists u v : R,
    (0 <= u)%R /\ (0 <= v)%R /\ (u + v <= 1)%R /\
    position hit
    = vadd (Triangle.v0 tri)
           (vadd (@smul exact u (vsub (Triangle.v1 tri) (Triangle.v0 tri)))
                 (@smul exact v (vsub (Triangle.v2 tri) (Triangle.v0 tri)))).
Proof.
  intros Hd.
  destruct (triangle_intersect_cases tri ray interaction)
    as [[(_ & Hu & Hv & Huv) ->] | [_ ->]]; cbn [fst snd];
    [ intros _ | discriminate ].
  cbv zeta. rewrite fill_position, fill_distance.
  split; [ reflexivity | ].
  exists (mt_u tri ray), (mt_v tri ray). real_ops.
  apply Rleb_true in Hu, Hv, Huv.
  repeat split; try assumption.
  now apply (@exact_moller_trumbore tri ray).
Qed.

Lemma exact_example_determinant :
  dot (mt_s1 ExR.tri ExR.ray_tri) (mt_e1 ExR.tri) <> 0%R.
Proof.
  unfold mt_s1, mt_e1, mt_e2, dot, cross, vsub; cbn. real_ops. lra.
Qed.

Lemma triangle_hit_in_triangle_witness :
  position (snd (Triangle.intersect ExR.tri ExR.ray_tri ExR.blank))
  = ray_at ExR.ray_tri
           (distance (snd (Triangle.intersect ExR.tri ExR.ray_tri ExR.blank))).
Proof.
  apply (@triangle_hit_in_triangle ExR.tri ExR.ray_tri ExR.blank).
  - exact exact_example_determinant.
  - apply exact_example_triangle_hit.
Defined.

(** X4. In exact arithmetic with [EPS >= 0], a hit of
    [Rectangle::intersect] lies in the plane of the rectangle, within half
    the width along the normalised tangent and half the height along the
    normalised [normal x tangent], at a distance that is not negative. *)
Theorem rectangle_hit_in_rectangle
        (EPS : R) (rect : @Rectangle.t exact) (ray : @Ray exact)
        (interaction : @Interaction exact) :
  (0 <= EPS)%R ->
  fst (@Rectangle.intersect exact EPS rect ray interaction) = true ->
  let hit := snd (@Rectangle.intersect exact EPS rect ray interaction) in
  let q := vsub (position hit) (Rectangle.position rect) in
  dot q (Rectangle.normal rect) = 0%R /\
  (Rabs (dot q (normalized (Rectangle.tangent rect)))
   <= Rectangle.size_x rect / 2)%R /\
  (Rabs (dot q (normalized (cross (Rectangle.normal rect)
                                  (Rectangle.tangent rect))))
   <= Rectangle.size_y rect / 2)%R /\
  position hit = ray_at ray (distance hit) /\
  (0 <= distance hit)%R.
Proof.
  intros HE Hhit.
  destruct (@exact_rectangle_hit EPS rect ray interaction Hhit)
    as (Hp & Hdist & Hpos & Ht & Hw & Hh).
  cbv zeta. rewrite Hpos, Hdist.
  assert (Hdn : dot (getDirection ray) (Rectangle.normal rect) <> 0%R).
  { intros H0. rewrite H0, Rabs_R0 in Hp. lra. }
  split; [ | split; [ | split; [ | split ] ] ].
  - unfold dot, vsub, ray_at, vadd, smul in *; cbn [vx vy vz] in *.
    real_ops. field. exact Hdn.
  - apply Rabs_le. lra.
  - apply Rabs_le. lra.
  - reflexivity.
  - exact Ht.
Qed.

Lemma exact_example_rectangle_hit :
  fst (@Rectangle.intersect exact 0%R ExS.rect ExS.ray_up ExR.blank) = true.
Proof.
  unfold Rectangle.intersect.
  generalize (normalized (Rectangle.tangent ExS.rect))
             (normalized (cross (Rectangle.normal ExS.rect)
                                (Rectangle.tangent ExS.rect))).
  intros a b.
  unfold dot, vsub, ray_at, vadd, smul; cbn. real_ops.
  replace (Rleb (Rabs (0 * 0 + 0 * 0 + 1 * 1)) 0) with false.
  2:{ symmetry. apply Rleb_false.
      replace (0 * 0 + 0 * 0 + 1 * 1)%R with 1%R by ring.
      rewrite Rabs_R1. lra. }
  match goal with
  | |- fst (if ?c then _ else _) = true =>
      replace c with true; [ reflexivity | symmetry ]
  end.
  repeat (apply andb_true_iff; split); apply Rleb_true; lra.
Qed.

Lemma rectangle_hit_in_rectangle_witness :
  dot (vsub (position
               (snd (@Rectangle.intersect exact 0%R ExS.rect ExS.ray_up
                                          ExR.blank)))
            (Rectangle.position ExS.rect))
      (Rectangle.normal ExS.rect)
  = 0%R.
Proof.
  apply (@rectangle_hit_in_rectangle 0%R ExS.rect ExS.ray_up ExR.blank).
  - apply Rle_refl.
  - exact exact_example_rectangle_hit.
Defined.

(** X5. In exact arithmetic, for a ray that is not horizontal, a hit of
    [Ground::intersect] lies in the plane [z = h], at a distance of at least
    [tMin], and it is the point of the ray at that distance. *)
Theorem ground_hit_on_plane
        (g : @Ground.t exact) (ray : @Ray exact)
        (interaction : @Interaction exact) :
  vz (getDirection ray) <> 0%R ->
  fst (Ground.intersect g ray interaction) = true ->
  let hit := snd (Ground.intersect g ray interaction) in
  vz (position hit) = Ground.z g /\
  (getTMin ray <= distance hit)%R /\
  position hit = ray_at ray (distance hit).
Proof.
  intros Hz.
  destruct (ground_intersect_cases ray interaction g) as [[-> Ht] | ->];
    cbn [fst snd]; [ intros _ | discriminate ].
  cbv zeta. rewrite fill_position, fill_distance.
  real_ops. apply Rltb_false in Ht.
  split; [ | split; [ exact Ht | reflexivity ] ].
  unfold ray_at, vadd, smul; cbn [vx vy vz]. real_ops. field. exact Hz.
Qed.

Lemma ground_hit_on_plane_witness :
  vz (position (snd (Ground.intersect ExR.ground ExR.ray_down ExR.blank)))
  = Ground.z ExR.ground.
Proof.
  apply (@ground_hit_on_plane ExR.ground ExR.ray_down ExR.blank).
  - cbn. lra.
  - exact exact_example_ground_hit.
Defined.

(** ** The ellipsoid and its unit sphere (exact arithmetic) *)

Section ExactEllipsoid.
Local Open Scope R_scope.

(** A normalised vector times the norm is the vector, zero included. *)
Lemma exact_normalized_norm (v : @Vec3 exact) :
  vx (normalized v) * norm v = vx v /\
  vy (normalized v) * norm v = vy v /\
  vz (normalized v) * norm v = vz v.
Proof.
  unfold normalized, norm. real_ops.
  destruct (Rltb 0 (squaredNorm v)) eqn:E.
  - apply Rltb_true in E. pose proof (sqrt_lt_R0 _ E) as Hs.
    unfold vdivs; cbn [vx vy vz]. real_ops.
    repeat split; field; lra.
  - apply Rltb_false in E. rewrite exact_squaredNorm in E.
    assert (vx v = 0 /\ vy v = 0 /\ vz v = 0) as (Hx & Hy & Hz)
        by (repeat split; nra).
    rewrite Hx, Hy, Hz. repeat split; ring.
Qed.

(** The chosen root is positive, in every arithmetic. *)
Lemma select_root_positive {Num : Scalar} (t1 t2 t : F) :
  Ellipsoid.select_root t1 t2 = Some t -> ltb i0 t = true.
Proof.
  unfold Ellipsoid.select_root, fmin.
  destruct (ltb i0 t1) eqn:H1, (ltb i0 t2) eqn:H2; cbn [andb];
    try destruct (ltb t2 t1); intros H; inversion H; subst; assumption.
Qed.

(** The ray in unit-sphere space at parameter [t] is the image of the
    point of the ray at [t]. *)
Lemma exact_transformed_point (e : @Ellipsoid.t exact) (ray : @Ray exact)
      (t : R) :
  let P := ray_at ray t in
  let q := mat4_mulv (inverse4 (Ellipsoid.transform e))
                     (mkVec4 (vx P) (vy P) (vz P) (1 : @F exact)) in
  vadd (Ellipsoid.origin_transformed e ray)
       (@smul exact t (Ellipsoid.direction_transformed e ray))
  = mkVec3 (wx q) (wy q) (wz q).
Proof.
  cbv zeta.
  unfold Ellipsoid.origin_transformed, Ellipsoid.direction_transformed,
    mat4_mulv, ray_at, vadd, smul.
  set (Mi := inverse4 (Ellipsoid.transform e)).
  cbn [vx vy vz wx wy wz ww]. real_ops.
  apply vec3_ext; cbn [vx vy vz]; real_ops; ring.
Qed.
End ExactEllipsoid.

(** X6. In exact arithmetic, the matrix [M = T R S] built by
    [Ellipsoid::intersect] sends the point [(x, y, z)] of unit-sphere space to
    [p + x a + y b + z c]: the centre of the sphere to the centre of the
    ellipsoid, its three axis points to [p + a], [p + b], [p + c].  This
    holds for zero axis vectors too. *)
Theorem ellipsoid_transform_axes
        (e : @Ellipsoid.t exact) (x y z : R) :
  mat4_mulv (Ellipsoid.transform e) (@mkVec4 exact x y z 1%R)
  = @mkVec4 exact
      (vx (Ellipsoid.p e) + x * vx (Ellipsoid.a e)
       + y * vx (Ellipsoid.b e) + z * vx (Ellipsoid.c e))%R
      (vy (Ellipsoid.p e) + x * vy (Ellipsoid.a e)
       + y * vy (Ellipsoid.b e) + z * vy (Ellipsoid.c e))%R
      (vz (Ellipsoid.p e) + x * vz (Ellipsoid.a e)
       + y * vz (Ellipsoid.b e) + z * vz (Ellipsoid.c e))%R
      1%R.
Proof.
  destruct (exact_normalized_norm (Ellipsoid.a e)) as (Hax & Hay & Haz).
  destruct (exact_normalized_norm (Ellipsoid.b e)) as (Hbx & Hby & Hbz).
  destruct (exact_normalized_norm (Ellipsoid.c e)) as (Hcx & Hcy & Hcz).
  rewrite <- Hax, <- Hay, <- Haz, <- Hbx, <- Hby, <- Hbz, <- Hcx, <- Hcy,
    <- Hcz.
  unfold mat4_mulv, Ellipsoid.transform, mat4_mul, mat_of_rows.
  cbn [nth wx wy wz ww]. real_ops.
  f_equal; ring.
Qed.

(** X7. In exact arithmetic, a hit of [Ellipsoid::intersect] lies on the
    ellipsoid: taken back to unit-sphere space by the inverse of [M], the
    recorded position has length one.  The recorded distance is positive. *)
Theorem ellipsoid_hit_on_surface
        (e : @Ellipsoid.t exact) (ray : @Ray exact)
        (interaction : @Interaction exact) :
  fst (Ellipsoid.intersect e ray interaction) = true ->
  let hit := snd (Ellipsoid.intersect e ray interaction) in
  let P := position hit in
  let q := mat4_mulv (inverse4 (Ellipsoid.transform e))
                     (@mkVec4 exact (vx P) (vy P) (vz P) 1%R) in
  (wx q * wx q + wy q * wy q + wz q * wz q = 1)%R /\
  (0 < distance hit)%R /\
  P = ray_at ray (distance hit).
Proof.
  destruct (ellipsoid_intersect_cases ray interaction e)
    as [(t & -> & Hd & Hs & _) | ->]; cbn [fst snd];
    [ intros _ | discriminate ].
  cbv zeta. rewrite fill_position, fill_distance.
  split; [ | split; [ | reflexivity ] ].
  - pose proof (@exact_transformed_point e ray t) as Hq. cbv zeta in Hq.
    apply Rltb_true in Hd.
    pose proof (@exact_root_on_sphere (Ellipsoid.origin_transformed e ray)
                  (Ellipsoid.direction_transformed e ray) t Hd
                  (@select_root_one_of exact _ _ _ Hs)) as Hsph.
    rewrite Hq in Hsph. exact Hsph.
  - apply (@select_root_positive exact) in Hs. now apply Rltb_true in Hs.
Qed.

(** The example: for the unit sphere at the origin [M] is the identity, and
    so is its inverse. *)
Section ExactBall.
Local Open Scope R_scope.

Lemma exact_unit_normalized (v : @Vec3 exact) :
  squaredNorm v = 1 -> normalized v = v /\ norm v = 1.
Proof.
  intros H. unfold normalized, norm. rewrite H. real_ops.
  replace (Rltb 0 1) with true by (symmetry; apply Rltb_true; lra).
  rewrite sqrt_1. split; [ | reflexivity ].
  apply vec3_ext; unfold vdivs; cbn [vx vy vz]; real_ops; field.
Qed.

Lemma exact_ball_transform (i j : nat) :
  (i < 4)%nat -> (j < 4)%nat ->
  Ellipsoid.transform ExS.ball i j = if Nat.eqb i j then 1 else 0.
Proof.
  intros Hi Hj. unfold Ellipsoid.transform.
  change (Ellipsoid.a ExS.ball) with (ExR.vec 1 0 0).
  change (Ellipsoid.b ExS.ball) with (ExR.vec 0 1 0).
  change (Ellipsoid.c ExS.ball) with (ExR.vec 0 0 1).
  destruct (@exact_unit_normalized (ExR.vec 1 0 0)) as [-> ->];
    [ cbn; real_ops; ring | ].
  destruct (@exact_unit_normalized (ExR.vec 0 1 0)) as [-> ->];
    [ cbn; real_ops; ring | ].
  destruct (@exact_unit_normalized (ExR.vec 0 0 1)) as [-> ->];
    [ cbn; real_ops; ring | ].
  destruct i as [| [| [| [| i]]]]; try lia;
    destruct j as [| [| [| [| j]]]]; try lia;
    unfold mat4_mul, mat_of_rows; cbn; real_ops; ring.
Qed.

Lemma exact_ball_inverse (i j : nat) :
  (i < 4)%nat -> (j < 4)%nat ->
  inverse4 (Ellipsoid.transform ExS.ball) i j
  = if Nat.eqb i j then 1 else 0.
Proof.
  intros Hi Hj.
  assert (Hdet : det4 (Ellipsoid.transform ExS.ball) <> 0).
  { destruct (exact_transform_last_row ExS.ball) as (H0 & H1 & H2 & H3).
    rewrite (@exact_det4_block _ H0 H1 H2 H3).
    unfold det3, cofactor_3x3. cbn [Nat.add Nat.modulo Nat.divmod fst snd Nat.sub].
    rewrite !exact_ball_transform by lia. cbn. real_ops. lra. }
  rewrite <- (@exact_inverse4_cancel _ i j Hdet Hi Hj).
  unfold mat4_mul. rewrite !exact_ball_transform by lia.
  destruct j as [| [| [| [| j]]]]; try lia; cbn; real_ops; ring.
Qed.

Lemma exact_ball_ray (ray : @Ray exact) :
  Ellipsoid.origin_transformed ExS.ball ray = getOrigin ray /\
  Ellipsoid.direction_transformed ExS.ball ray = getDirection ray.
Proof.
  unfold Ellipsoid.origin_transformed, Ellipsoid.direction_transformed,
    mat4_mulv.
  rewrite !exact_ball_inverse by lia.
  split; apply vec3_ext; cbn; real_ops; ring.
Qed.

Lemma exact_example_ball_hit :
  fst (Ellipsoid.intersect ExS.ball ExS.ray_ball ExR.blank) = true.
Proof.
  destruct (exact_ball_ray ExS.ray_ball) as [Ho Hd].
  assert (Hdelta : Ellipsoid.delta ExS.ball ExS.ray_ball = 2 * 2).
  { unfold Ellipsoid.delta, Ellipsoid.quad_a, Ellipsoid.quad_b,
      Ellipsoid.quad_c. rewrite Ho, Hd. cbn. real_ops. ring. }
  assert (H1 : Ellipsoid.root1 ExS.ball ExS.ray_ball = 2).
  { unfold Ellipsoid.root1. rewrite Hdelta. real_ops.
    rewrite sqrt_square by lra.
    unfold Ellipsoid.quad_a, Ellipsoid.quad_b. rewrite Ho, Hd.
    cbn. real_ops. field. }
  assert (H2 : Ellipsoid.root2 ExS.ball ExS.ray_ball = 4).
  { unfold Ellipsoid.root2. rewrite Hdelta. real_ops.
    rewrite sqrt_square by lra.
    unfold Ellipsoid.quad_a, Ellipsoid.quad_b. rewrite Ho, Hd.
    cbn. real_ops. field. }
  unfold Ellipsoid.intersect. rewrite Hdelta, H1, H2.
  unfold Ellipsoid.select_root, fmin. real_ops.
  replace (Rltb 0 (2 * 2)) with true by (symmetry; apply Rltb_true; lra).
  replace (Rltb 0 2) with true by (symmetry; apply Rltb_true; lra).
  replace (Rltb 0 4) with true by (symmetry; apply Rltb_true; lra).
  cbn [andb].
  replace (Rltb 4 2) with false by (symmetry; apply Rltb_false; lra).
  replace (Rltb 2 (getTMin ExS.ray_ball)) with false
    by (symmetry; apply Rltb_false; cbn; lra).
  reflexivity.
Qed.
End ExactBall.

Lemma ellipsoid_hit_on_surface_witness :
  (0 < distance (snd (Ellipsoid.intersect ExS.ball ExS.ray_ball ExR.blank)))%R.
Proof.
  apply (@ellipsoid_hit_on_surface ExS.ball ExS.ray_ball ExR.blank).
  exact exact_example_ball_hit.
Defined.

(** ** Every crossing of a triangle is a hit (exact arithmetic) *)

Section ExactCrossing.
Local Open Scope R_scope.

(** With a determinant that is not zero the solution is unique: a point of
    the ray that is [v0 + u e1 + v e2] has the parameters Moller-Trumbore
    computes. *)
Lemma exact_moller_trumbore_unique
      (tri : @Triangle.t exact) (ray : @Ray exact) (t u v : R) :
  dot (mt_s1 tri ray) (mt_e1 tri) <> 0 ->
  ray_at ray t
  = vadd (Triangle.v0 tri)
         (vadd (@smul exact u (mt_e1 tri)) (@smul exact v (mt_e2 tri))) ->
  mt_t tri ray = t /\ mt_u tri ray = u /\ mt_v tri ray = v.
Proof.
  intros Hd Hp.
  pose proof (f_equal vx Hp) as Hx. pose proof (f_equal vy Hp) as Hy.
  pose proof (f_equal vz Hp) as Hz. clear Hp.
  unfold ray_at, vadd, smul, mt_e1, mt_e2, vsub in Hx, Hy, Hz;
    cbn [vx vy vz] in Hx, Hy, Hz.
  unfold mt_s1, mt_e1, mt_e2, dot, cross, vsub in Hd; cbn [vx vy vz] in Hd.
  real_ops.
  destruct ray as [[ox oy oz] [dx dy dz] tmin tmax].
  destruct tri as [[ax ay az] [bx by' bz] [cx cy cz] n m].
  cbn [getOrigin getDirection Triangle.v0 Triangle.v1 Triangle.v2 vx vy vz]
    in *.
  assert (Eox : ox = ax + (u * (bx - ax) + v * (cx - ax)) - t * dx) by lra.
  assert (Eoy : oy = ay + (u * (by' - ay) + v * (cy - ay)) - t * dy) by lra.
  assert (Eoz : oz = az + (u * (bz - az) + v * (cz - az)) - t * dz) by lra.
  clear Hx Hy Hz. subst ox oy oz.
  unfold mt_t, mt_u, mt_v, mt_scale, mt_s1, mt_s2, mt_s, mt_e1, mt_e2, dot,
    cross, vsub;
    cbn [getOrigin getDirection Triangle.v0 Triangle.v1 Triangle.v2
         vx vy vz].
  real_ops. repeat split; field; exact Hd.
Qed.
End ExactCrossing.

(** X21. In exact arithmetic, with a determinant [s1.e1] that is not zero,
    every point where the ray crosses the triangle at a parameter of at
    least [tMin] is reported: if [ray(t) = v0 + u (v1 - v0) + v (v2 - v0)]
    with [u, v >= 0], [u + v <= 1] and [t >= tMin], then
    [Triangle::intersect] returns true and records the distance [t]. *)
Theorem triangle_crossing_is_hit
        (tri : @Triangle.t exact) (ray : @Ray exact)
        (interaction : @Interaction exact) (t u v : R) :
  dot (mt_s1 tri ray) (mt_e1 tri) <> 0%R ->
  ray_at ray t
  = vadd (Triangle.v0 tri)
         (vadd (@smul exact u (vsub (Triangle.v1 tri) (Triangle.v0 tri)))
               (@smul exact v (vsub (Triangle.v2 tri) (Triangle.v0 tri)))) ->
  (getTMin ray <= t)%R -> (0 <= u)%R -> (0 <= v)%R -> (u + v <= 1)%R ->
  fst (Triangle.intersect tri ray interaction) = true /\
  distance (snd (Triangle.intersect tri ray interaction)) = t.
Proof.
  intros Hd Hp Ht Hu Hv Huv.
  destruct (@exact_moller_trumbore_unique tri ray t u v Hd Hp)
    as (Et & Eu & Ev).
  destruct (triangle_intersect_cases tri ray interaction)
    as [[_ ->] | [Hm _]]; cbn [fst snd].
  - rewrite fill_distance. now split.
  - exfalso. apply Hm. unfold mt_hit. rewrite Et, Eu, Ev. real_ops.
    rewrite !Rleb_true. now repeat split.
Qed.

Lemma triangle_crossing_is_hit_witness :
  fst (Triangle.intersect ExR.tri ExR.ray_tri ExR.blank) = true /\
  distance (snd (Triangle.intersect ExR.tri ExR.ray_tri ExR.blank)) = 1%R.
Proof.
  apply (@triangle_crossing_is_hit ExR.tri ExR.ray_tri ExR.blank
           1%R (1/4)%R (1/4)%R).
  - exact exact_example_determinant.
  - apply vec3_ext; cbn; real_ops; lra.
  - cbn. lra.
  - lra.
  - lra.
  - lra.
Defined.
(** ** The normal written by a hit, in every arithmetic *)

Section HitNormal.
Context {Num : Scalar}.
Variable EPS : F.
Variables (ray : Ray) (interaction : Interaction).




End HitNormal.






(** ** Forward hits and the far end of the interval *)

(** X8. In every arithmetic whose comparisons obey the order laws: a
    triangle hit lies at or beyond [tMin]; an ellipsoid hit has a positive
    distance, at or beyond [tMin] when [tMin] is a number; a ground hit lies
    at or beyond [tMin] when [tMin] and the distance are numbers; a rectangle
    hit has a distance of at least zero. *)
Theorem hits_are_forward
        {Num : Scalar} {Laws : OrderLaws Num} (EPS : F)
        (tri : Triangle.t) (rect : Rectangle.t) (e : Ellipsoid.t)
        (g : Ground.t) (ray : Ray) (interaction : Interaction) :
  (fst (Triangle.intersect tri ray interaction) = true ->
   leb (getTMin ray)
       (distance (snd (Triangle.intersect tri ray interaction))) = true) /\
  (fst (Ellipsoid.intersect e ray interaction) = true ->
   ltb i0 (distance (snd (Ellipsoid.intersect e ray interaction))) = true /\
   (leb (getTMin ray) (getTMin ray) = true ->
    leb (getTMin ray)
        (distance (snd (Ellipsoid.intersect e ray interaction))) = true)) /\
  (fst (Ground.intersect g ray interaction) = true ->
   leb (getTMin ray) (getTMin ray) = true ->
   leb (distance (snd (Ground.intersect g ray interaction)))
       (distance (snd (Ground.intersect g ray interaction))) = true ->
   leb (getTMin ray)
       (distance (snd (Ground.intersect g ray interaction))) = true) /\
  (fst (Rectangle.intersect EPS rect ray interaction) = true ->
   leb i0 (distance (snd (Rectangle.intersect EPS rect ray interaction)))
   = true).
Proof.
  split; [ | split; [ | split ] ].
  - apply triangle_hit_forward.
  - intros Hhit. split.
    + destruct (ellipsoid_intersect_cases ray interaction e)
        as [(t & E & _ & Hs & _) | E]; rewrite E in *; cbn [fst snd] in *;
        [ | discriminate ].
      rewrite fill_distance. now apply select_root_positive in Hs.
    + intros Hm. now apply ellipsoid_hit_forward.
  - destruct (ground_intersect_cases ray interaction g) as [[-> Ht] | ->];
      cbn [fst snd]; [ intros _ Hm | discriminate ].
    rewrite fill_distance. intros Hd. now apply not_ltb_leb.
  - apply rectangle_hit_nonnegative.
Qed.

Lemma hits_are_forward_witness :
  leb (getTMin Ex.ray_tri)
      (distance (snd (Triangle.intersect Ex.tri Ex.ray_tri Ex.blank))) = true /\
  ltb i0 (distance (snd (Ellipsoid.intersect Ex.egg Ex.ray_egg_top Ex.blank)))
  = true /\
  leb (getTMin Ex.ray_down)
      (distance (snd (Ground.intersect Ex.ground Ex.ray_down Ex.blank))) = true.
Proof.
  destruct (@hits_are_forward binary32 binary32_order Ex.eps Ex.tri Ex.rect
              Ex.egg Ex.ground Ex.ray_tri Ex.blank) as (Ht & _).
  destruct (@hits_are_forward binary32 binary32_order Ex.eps Ex.tri Ex.rect
              Ex.egg Ex.ground Ex.ray_egg_top Ex.blank) as (_ & He & _).
  destruct (@hits_are_forward binary32 binary32_order Ex.eps Ex.tri Ex.rect
              Ex.egg Ex.ground Ex.ray_down Ex.blank) as (_ & _ & Hg & _).
  assert (H1 : fst (Triangle.intersect Ex.tri Ex.ray_tri Ex.blank) = true)
    by (vm_compute; reflexivity).
  assert (H2 : fst (Ellipsoid.intersect Ex.egg Ex.ray_egg_top Ex.blank)
               = true) by (vm_compute; reflexivity).
  assert (H3 : fst (Ground.intersect Ex.ground Ex.ray_down Ex.blank) = true)
    by (vm_compute; reflexivity).
  split; [ exact (Ht H1) | split; [ exact (proj1 (He H2)) | ] ].
  apply (Hg H3); vm_compute; reflexivity.
Defined.

(** X9. No primitive lets [tMax] bear on its result (the triangle copies it
    to a local it never uses, the ellipsoid and the ground have the test
    commented out, the rectangle does not read it): two rays that differ in
    [tMax] only get the same verdict and the same hit record, however far
    the hit. *)
Theorem tMax_is_ignored
        {Num : Scalar} (EPS : F) (tri : Triangle.t) (rect : Rectangle.t)
        (e : Ellipsoid.t) (g : Ground.t) (o d : Vec3) (tmin tmax tmax' : F)
        (interaction : Interaction) :
  Triangle.intersect tri (mkRay o d tmin tmax) interaction
  = Triangle.intersect tri (mkRay o d tmin tmax') interaction /\
  Rectangle.intersect EPS rect (mkRay o d tmin tmax) interaction
  = Rectangle.intersect EPS rect (mkRay o d tmin tmax') interaction /\
  Ellipsoid.intersect e (mkRay o d tmin tmax) interaction
  = Ellipsoid.intersect e (mkRay o d tmin tmax') interaction /\
  Ground.intersect g (mkRay o d tmin tmax) interaction
  = Ground.intersect g (mkRay o d tmin tmax') interaction.
Proof. repeat split. Qed.

(** ** Divisions by zero on single precision *)

Section DivisionByZero.
Local Open Scope fl_scope.

Lemma b32_i1 : @i1 binary32 = S754_finite false 8388608 (-23).
Proof. reflexivity. Qed.

(** One over a zero is an infinity, one over NaN is NaN; their products
    are infinities or NaN, and two such numbers never pass the tests
    [u >= 0], [v >= 0], [u + v <= 1]. *)
Lemma b32_barycentric_blow_up (det du dv : spec_float) :
  b32_is_zero det = true \/ det = S754_nan ->
  let k := SFdiv 24 128 (S754_finite false 8388608 (-23)) det in
  let u := SFmul 24 128 k du in
  let v := SFmul 24 128 k dv in
  SFleb (S754_zero false) u && SFleb (S754_zero false) v
  && SFleb (SFadd 24 128 u v) (S754_finite false 8388608 (-23)) = false.
Proof.
  intros [Hz | ->].
  - destruct det as [s | | |]; try discriminate Hz. cbn [SFdiv].
    destruct s, du as [[] | [] | | [] ? ?], dv as [[] | [] | | [] ? ?];
      reflexivity.
  - destruct du, dv; reflexivity.
Qed.
End DivisionByZero.

(** X10. On single precision, when the determinant [s1.e1] evaluates to a
    zero (a ray along the plane of the triangle, a degenerate triangle) or to
    NaN, [Triangle::intersect] returns false: the division by zero is never
    reported as a hit. *)
Theorem triangle_zero_determinant_misses
        (tri : @Triangle.t binary32) (ray : @Ray binary32)
        (interaction : @Interaction binary32) :
  b32_is_zero (dot (mt_s1 tri ray) (mt_e1 tri)) = true \/
  dot (mt_s1 tri ray) (mt_e1 tri) = S754_nan ->
  Triangle.intersect tri ray interaction = (false, interaction).
Proof.
  intros Hdet.
  destruct (triangle_intersect_cases tri ray interaction)
    as [[(_ & Hu & Hv & Huv) _] | [_ E]]; [ exfalso | exact E ].
  pose proof (@b32_barycentric_blow_up _
                (dot (mt_s1 tri ray) (mt_s tri ray))
                (dot (mt_s2 tri ray) (getDirection ray)) Hdet) as H.
  cbv zeta in H.
  unfold mt_u, mt_v, mt_scale in Hu, Hv, Huv.
  rewrite b32_i1 in Hu, Hv, Huv. rewrite b32_i0 in Hu, Hv.
  cbn [leb add mul div binary32] in Hu, Hv, Huv.
  rewrite Hu, Hv, Huv in H. discriminate H.
Qed.

Lemma triangle_zero_determinant_misses_witness :
  Triangle.intersect Ex.tri ExT.ray_level Ex.blank = (false, Ex.blank).
Proof.
  apply (@triangle_zero_determinant_misses Ex.tri ExT.ray_level Ex.blank).
  left. vm_compute. reflexivity.
Defined.

(** X11. On single precision, for a horizontal ray ([direction.z] a zero of
    either sign) the quotient computed by [Ground::intersect] is NaN or an
    infinity, and the ray is rejected exactly when the quotient is minus
    infinity and [tMin] is neither NaN nor minus infinity; in every other
    case a hit is reported. *)
Theorem ground_horizontal_ray_verdict
        (g : @Ground.t binary32) (ray : @Ray binary32)
        (interaction : @Interaction binary32) :
  b32_is_zero (vz (getDirection ray)) = true ->
  let t := SFdiv 24 128 (SFsub 24 128 (Ground.z g) (vz (getOrigin ray)))
                 (vz (getDirection ray)) in
  b32_finite t = false /\
  (fst (Ground.intersect g ray interaction) = false <->
   t = S754_infinity true /\ getTMin ray <> S754_nan
   /\ getTMin ray <> S754_infinity true).
Proof.
  intros Hz. cbv zeta. unfold Ground.intersect. cbn [div sub ltb binary32].
  destruct (vz (getDirection ray)) as [s | | |]; try discriminate Hz.
  destruct (SFsub 24 128 (Ground.z g) (vz (getOrigin ray)))
    as [sx | sx | | sx mx ex]; cbn [SFdiv b32_finite];
    (split; [ reflexivity | ]);
    try (cbn; split; [ discriminate | intros (H & _); discriminate H ]);
    destruct (xorb sx s);
    destruct (getTMin ray) as [| [] | |]; cbn;
    (split; [ try discriminate; intros _; repeat split; discriminate
            | try reflexivity; intros (H1 & H2 & H3);
              try discriminate H1; try (now elim H2); try (now elim H3) ]).
Qed.

Lemma ground_horizontal_ray_verdict_witness :
  fst (Ground.intersect Ex.ground ExT.ray_level Ex.blank) = false <->
  SFdiv 24 128 (SFsub 24 128 (Ground.z Ex.ground)
                      (vz (getOrigin ExT.ray_level)))
        (vz (getDirection ExT.ray_level)) = S754_infinity true /\
  getTMin ExT.ray_level <> S754_nan /\
  getTMin ExT.ray_level <> S754_infinity true.
Proof.
  apply (@ground_horizontal_ray_verdict Ex.ground ExT.ray_level Ex.blank).
  vm_compute. reflexivity.
Defined.

(** X12. On single precision with [EPS] a number that is not negative,
    [Rectangle::intersect] returns false whenever [direction.normal] is a
    zero or NaN, and the distance of a hit is a number or plus infinity,
    never NaN and never below zero: its division is never by zero. *)
Theorem rectangle_guards_its_division
        (EPS : @F binary32) (rect : @Rectangle.t binary32)
        (ray : @Ray binary32) (interaction : @Interaction binary32) :
  SFleb (S754_zero false) EPS = true ->
  let dn := dot (getDirection ray) (Rectangle.normal rect) in
  (b32_is_zero dn = true \/ dn = S754_nan ->
   Rectangle.intersect EPS rect ray interaction = (false, interaction)) /\
  (fst (Rectangle.intersect EPS rect ray interaction) = true ->
   b32_is_zero dn = false /\ dn <> S754_nan /\
   SFleb (S754_zero false)
         (distance (snd (Rectangle.intersect EPS rect ray interaction)))
   = true /\
   distance (snd (Rectangle.intersect EPS rect ray interaction))
   <> S754_nan).
Proof.
  intros HE. cbv zeta.
  assert (Hguard :
            b32_is_zero (dot (getDirection ray) (Rectangle.normal rect)) = true
            \/ dot (getDirection ray) (Rectangle.normal rect) = S754_nan ->
            Rectangle.intersect EPS rect ray interaction
            = (false, interaction)).
  { unfold Rectangle.intersect. cbn [leb fabs div binary32].
    intros [Hz | Hn].
    - destruct (dot (getDirection ray) (Rectangle.normal rect))
        as [s | | |]; try discriminate Hz.
      cbn [SFabs]. now rewrite HE.
    - rewrite Hn. cbn [SFabs].
      replace (SFleb S754_nan EPS) with false by reflexivity.
      match goal with
      | |- context [ SFdiv 24 128 ?x S754_nan ] =>
          replace (SFdiv 24 128 x S754_nan) with S754_nan
            by (destruct x; reflexivity)
      end.
      rewrite b32_i0. reflexivity. }
  split; [ exact Hguard | ].
  intros Hhit.
  assert (Hd : SFleb (S754_zero false)
                 (distance (snd (Rectangle.intersect EPS rect ray
                                                     interaction))) = true).
  { pose proof (@rectangle_hit_nonnegative binary32 ray interaction EPS rect
                  Hhit) as H.
    rewrite b32_i0 in H. exact H. }
  repeat split.
  - apply not_true_is_false. intros E.
    rewrite (Hguard (or_introl E)) in Hhit. discriminate Hhit.
  - intros E. rewrite (Hguard (or_intror E)) in Hhit. discriminate Hhit.
  - exact Hd.
  - intros E. rewrite E in Hd. discriminate Hd.
Qed.

Lemma rectangle_guards_its_division_witness :
  Rectangle.intersect Ex.eps Ex.rect ExT.ray_level Ex.blank
  = (false, Ex.blank).
Proof.
  apply (@rectangle_guards_its_division Ex.eps Ex.rect ExT.ray_level Ex.blank).
  - vm_compute. reflexivity.
  - left. vm_compute. reflexivity.
Defined.

(** ** Shading *)

Lemma filter_none (A : Type) (f : A -> bool) (l : list A) :
  (forall x, In x l -> f x = false) -> filter f l = [].
Proof.
  induction l as [| a l IH]; intros H; [ reflexivity | ].
  cbn [filter]. rewrite (H a (or_introl eq_refl)).
  apply IH. intros x Hx. apply H. now right.
Qed.

(** X13. At a hit that is not the light, when [isShadowed] holds for the
    shadow ray of every VPL (and so also when there is no VPL at all),
    [evalRadiance] returns the ambient term with two zero vectors added: no
    diffuse and no specular light arrives. *)
Theorem shadowed_point_gets_ambient_only
        {Num : Scalar} (default_tMin default_tMax : F) (powf : F -> F -> F)
        (scene : HypoxRayTracer.Scene) (ray : Ray)
        (interaction : Interaction) :
  type interaction <> LIGHT ->
  (forall v, In v (HypoxRayTracer.getVPLs scene) ->
             HypoxRayTracer.isShadowed scene
               (HypoxRayTracer.shadow_ray default_tMin default_tMax
                                          interaction v) = true) ->
  HypoxRayTracer.evalRadiance default_tMin default_tMax powf scene ray
                              interaction
  = vadd (vadd (cwiseProduct (Ambient (matmodel interaction))
                             (HypoxRayTracer.getAmbientLight scene))
               vzero)
         vzero.
Proof.
  intros Ht Hall. unfold HypoxRayTracer.evalRadiance.
  fold (number_of_VPLs scene). rewrite vpl_loop_sums.
  rewrite (@filter_none _ (unshadowed default_tMin default_tMax scene
                                      interaction)).
  - destruct (type interaction); try reflexivity. now elim Ht.
  - intros v Hv. unfold unshadowed. now rewrite (Hall v Hv).
Qed.

Lemma shadowed_point_gets_ambient_only_witness :
  vx (HypoxRayTracer.evalRadiance
        Ex.tmin Ex.tmax Ex.powf_unreached
        (HypoxRayTracer.mkScene (fun _ _ => (true, Ex.hit_up))
                                (fun _ => true) (Ex.vec Ex.one Ex.one Ex.one)
                                (Ex.vec Ex.one Ex.one Ex.one)
                                [Ex.vpl_aside])
        Ex.ray_down Ex.hit_up)
  = Ex.half.
Proof.
  rewrite (@shadowed_point_gets_ambient_only binary32 Ex.tmin Ex.tmax
             Ex.powf_unreached _ Ex.ray_down Ex.hit_up).
  - vm_compute. reflexivity.
  - discriminate.
  - intros v _. reflexivity.
Defined.

(** Sums of colours in exact arithmetic do not depend on the order. *)
Section ExactSums.
Local Open Scope R_scope.

Lemma exact_vadd_swap (c x y : @Vec3 exact) :
  vadd (vadd c x) y = vadd (vadd c y) x.
Proof. apply vec3_ext; cbn [vadd vx vy vz]; real_ops; ring. Qed.

Lemma exact_fold_vadd_permutation (l l' : list (@Vec3 exact)) :
  Permutation l l' ->
  forall c, fold_left vadd l c = fold_left vadd l' c.
Proof.
  induction 1 as [| x l l' _ IH | x y l | l l' l'' _ IH1 _ IH2]; intros c;
    cbn [fold_left].
  - reflexivity.
  - apply IH.
  - now rewrite exact_vadd_swap.
  - now rewrite IH1.
Qed.

Lemma Permutation_filter_same (A : Type) (f : A -> bool) (l l' : list A) :
  Permutation l l' -> Permutation (filter f l) (filter f l').
Proof.
  induction 1 as [| x l l' _ IH | x y l | l l' l'' _ IH1 _ IH2];
    cbn [filter].
  - constructor.
  - destruct (f x); [ now constructor | exact IH ].
  - destruct (f x), (f y); try reflexivity. constructor.
  - now transitivity (filter f l').
Qed.
End ExactSums.

(** X14. In exact arithmetic the radiance does not depend on the order in
    which the light lists its VPLs: two scenes that differ by a permutation
    of the sample set give the same [evalRadiance]. *)
Theorem radiance_ignores_vpl_order
        (default_tMin default_tMax : R) (powf : R -> R -> R)
        (scene : @HypoxRayTracer.Scene exact)
        (vpls vpls' : list (@HypoxRayTracer.VPL exact))
        (ray : @Ray exact) (interaction : @Interaction exact) :
  Permutation vpls vpls' ->
  @HypoxRayTracer.evalRadiance exact default_tMin default_tMax powf
    (with_VPLs scene vpls) ray interaction
  = @HypoxRayTracer.evalRadiance exact default_tMin default_tMax powf
      (with_VPLs scene vpls') ray interaction.
Proof.
  intros HP. unfold HypoxRayTracer.evalRadiance.
  destruct (type interaction); try reflexivity;
    fold (number_of_VPLs (with_VPLs scene vpls));
    fold (number_of_VPLs (with_VPLs scene vpls'));
    rewrite !vpl_loop_sums;
    assert (Hn : number_of_VPLs (with_VPLs scene vpls)
                 = number_of_VPLs (with_VPLs scene vpls'))
      by (unfold number_of_VPLs; cbn [HypoxRayTracer.getVPLs with_VPLs];
          now rewrite (Permutation_length HP));
    unfold diffuse_term, specular_term; rewrite Hn;
    cbn [HypoxRayTracer.getVPLs HypoxRayTracer.getAmbientLight with_VPLs];
    unfold unshadowed; cbn [HypoxRayTracer.isShadowed with_VPLs];
    match goal with
    | |- context [ filter ?f vpls ] =>
        pose proof (Permutation_filter_same f HP) as HF
    end;
    rewrite (exact_fold_vadd_permutation (Permutation_map _ HF) vzero);
    match goal with
    | |- vadd (vadd ?a ?d) ?s = vadd (vadd ?a ?d) ?s' =>
        replace s with s'; [ reflexivity | ]
    end;
    symmetry; apply exact_fold_vadd_permutation; apply Permutation_map;
    exact HF.
Qed.

Lemma radiance_ignores_vpl_order_witness :
  @HypoxRayTracer.evalRadiance exact 0%R 1%R Rpower
    (with_VPLs ExS.open_scene [ExS.vpl_above; ExS.vpl_aside])
    ExR.ray_down ExS.hit_up
  = @HypoxRayTracer.evalRadiance exact 0%R 1%R Rpower
      (with_VPLs ExS.open_scene [ExS.vpl_aside; ExS.vpl_above])
      ExR.ray_down ExS.hit_up.
Proof.
  apply (@radiance_ignores_vpl_order 0%R 1%R Rpower ExS.open_scene
           [ExS.vpl_above; ExS.vpl_aside] [ExS.vpl_aside; ExS.vpl_above]).
  apply perm_swap.
Defined.

Section ExactLight.
Local Open Scope R_scope.

Lemma exact_unit_squaredNorm (n : @Vec3 exact) :
  unit_vector n -> squaredNorm n = 1.
Proof.
  unfold unit_vector, norm. real_ops. intros H.
  assert (H0 : 0 <= squaredNorm n)
    by (rewrite exact_squaredNorm; nra).
  rewrite <- (sqrt_sqrt _ H0), H. ring.
Qed.

Lemma exact_normalized_scaled (n : @Vec3 exact) (k : R) :
  unit_vector n -> 0 < k -> normalized (@smul exact k n) = n.
Proof.
  intros Hn Hk. apply exact_unit_squaredNorm in Hn.
  rewrite exact_squaredNorm in Hn.
  assert (Hs : squaredNorm (@smul exact k n) = k * k).
  { rewrite exact_squaredNorm. unfold smul; cbn [vx vy vz]. real_ops.
    replace (k * vx n * (k * vx n) + k * vy n * (k * vy n)
             + k * vz n * (k * vz n))
      with (k * k * (vx n * vx n + vy n * vy n + vz n * vz n)) by ring.
    rewrite Hn. ring. }
  unfold normalized. rewrite Hs. real_ops.
  replace (Rltb 0 (k * k)) with true by (symmetry; apply Rltb_true; nra).
  rewrite sqrt_square by lra.
  apply vec3_ext; unfold vdivs, smul; cbn [vx vy vz]; real_ops; field; lra.
Qed.
End ExactLight.

(** X15. In exact arithmetic, for a VPL that sits straight along the unit
    normal of the hit (at [position + k normal], [k > 0]) the light
    direction is the normal, the diffuse factor is one and the reflection
    direction is the normal again. *)
Theorem light_along_the_normal
        (interaction : @Interaction exact) (v : @HypoxRayTracer.VPL exact)
        (k : R) :
  unit_vector (normal interaction) -> (0 < k)%R ->
  HypoxRayTracer.vpl_position v
  = vadd (position interaction) (@smul exact k (normal interaction)) ->
  HypoxRayTracer.light_dir interaction v = normal interaction /\
  HypoxRayTracer.diff_factor interaction v = 1%R /\
  HypoxRayTracer.reflect_dir interaction v = normal interaction.
Proof.
  intros Hn Hk Hv.
  assert (Hl : HypoxRayTracer.light_dir interaction v = normal interaction).
  { unfold HypoxRayTracer.light_dir. rewrite Hv.
    replace (vsub (vadd (position interaction)
                        (@smul exact k (normal interaction)))
                  (position interaction))
      with (@smul exact k (normal interaction))
      by (apply vec3_ext; unfold vsub, vadd, smul; cbn [vx vy vz];
          real_ops; ring).
    now apply exact_normalized_scaled. }
  pose proof (exact_unit_squaredNorm Hn) as Hq.
  split; [ exact Hl | split ].
  - unfold HypoxRayTracer.diff_factor. rewrite Hl.
    fold (squaredNorm (normal interaction)). rewrite Hq.
    unfold fmax. real_ops.
    now replace (Rltb 0 1) with true by (symmetry; apply Rltb_true; lra).
  - unfold HypoxRayTracer.reflect_dir. rewrite Hl.
    fold (squaredNorm (normal interaction)). rewrite Hq.
    replace (vsub (@smul exact (@mul exact i2 1%R) (normal interaction))
                  (normal interaction))
      with (normal interaction).
    2:{ apply vec3_ext; unfold vsub, smul; cbn [vx vy vz]; real_ops; lra. }
    apply exact_unit_normalized. exact Hq.
Qed.

Lemma light_along_the_normal_witness :
  HypoxRayTracer.diff_factor ExS.hit_up ExS.vpl_above = 1%R.
Proof.
  apply (@light_along_the_normal ExS.hit_up ExS.vpl_above 4%R).
  - exact exact_up_unit.
  - lra.
  - apply vec3_ext; cbn; real_ops; ring.
Defined.

(** ** The render loop, further *)

Section RenderMore.
Context {Num : Scalar}.
Import HypoxRayTracer.
Variables (default_tMin default_tMax : F).
Variable default_interaction : Interaction.
Variable powf : F -> F -> F.
Variable scene : Scene.
Variable camera : Camera.
Variable spp : Z.

Abbreviation run_columns :=
  (render_columns default_tMin default_tMax default_interaction powf scene
                  camera spp).
Abbreviation run_column :=
  (render_column default_tMin default_tMax default_interaction powf scene
                 camera spp).
Abbreviation run_rows :=
  (render_rows default_tMin default_tMax default_interaction powf scene
               camera spp).
Abbreviation writes :=
  (image_writes default_tMin default_tMax default_interaction powf scene
                camera spp).
Abbreviation col_writes :=
  (column_writes default_tMin default_tMax default_interaction powf scene
                 camera spp).

Lemma int_mul_none :
  ~ (- 2 ^ 31 <= spp * spp < 2 ^ 31)%Z -> int_mul spp spp = None.
Proof.
  intros H. unfold int_mul.
  destruct (Z.leb_spec (- 2 ^ 31) (spp * spp)),
           (Z.ltb_spec (spp * spp) (2 ^ 31)); cbn [andb];
    try reflexivity; lia.
Qed.

Lemma render_rows_overflow (dx dy : Z) (rows : list Z) :
  ~ (- 2 ^ 31 <= spp * spp < 2 ^ 31)%Z -> run_rows dx (dy :: rows) = None.
Proof.
  intros H. cbn [render_rows]. unfold pixel_color.
  now rewrite (int_mul_none H).
Qed.

Lemma render_columns_no_rows (cols : list Z) :
  (forall dx, In dx cols -> run_column dx = Some []) ->
  run_columns cols = Some [].
Proof.
  induction cols as [| dx cols IH]; intros H; [ reflexivity | ].
  cbn [render_columns]. rewrite (H dx (or_introl eq_refl)).
  rewrite IH; [ reflexivity | ]. intros dx' Hin. apply H. now right.
Qed.

Lemma upto_empty (n : Z) : (n <= 0)%Z -> upto n = [].
Proof.
  intros H. unfold upto. now replace (Z.to_nat n) with 0%nat by lia.
Qed.

Lemma length_upto (n : Z) : length (upto n) = Z.to_nat n.
Proof. unfold upto. now rewrite length_map, length_seq. Qed.

Lemma in_upto (n z : Z) : In z (upto n) <-> (0 <= z < n)%Z.
Proof.
  unfold upto. rewrite in_map_iff. split.
  - intros (k & <- & Hk). apply in_seq in Hk. lia.
  - intros H. exists (Z.to_nat z). split; [ lia | apply in_seq; lia ].
Qed.

Lemma length_image_writes :
  length writes
  = (Z.to_nat (resolution_x camera) * Z.to_nat (resolution_y camera))%nat.
Proof.
  unfold image_writes. rewrite <- (length_upto (resolution_x camera)).
  induction (upto (resolution_x camera)) as [| dx cols IH];
    [ reflexivity | ].
  cbn [flat_map length]. rewrite length_app, IH.
  unfold column_writes. now rewrite length_map, length_upto.
Qed.
End RenderMore.

(** X16. On an image at least 200 pixels wide, with [spp * spp] within
    [int], a run of [render] calls [setPixel] exactly [width x height]
    times: once for every pixel, with the sum of [evalRadiance] over the
    samples that hit divided by [spp * spp], and never outside the image. *)
Theorem render_wide_is_complete
        {Num : Scalar} (default_tMin default_tMax : F)
        (default_interaction : Interaction) (powf : F -> F -> F)
        (scene : HypoxRayTracer.Scene) (camera : HypoxRayTracer.Camera)
        (spp : Z) :
  (200 <= HypoxRayTracer.resolution_x camera)%Z ->
  (- 2 ^ 31 <= spp * spp < 2 ^ 31)%Z ->
  exists ws,
    HypoxRayTracer.render default_tMin default_tMax default_interaction powf
                          scene camera spp = Some ws /\
    length ws
    = (Z.to_nat (HypoxRayTracer.resolution_x camera)
       * Z.to_nat (HypoxRayTracer.resolution_y camera))%nat /\
    (forall dx dy,
        (0 <= dx < HypoxRayTracer.resolution_x camera)%Z ->
        (0 <= dy < HypoxRayTracer.resolution_y camera)%Z ->
        writes_to dx dy ws = 1%nat) /\
    (forall dx dy c,
        In (dx, dy, c) ws ->
        (0 <= dx < HypoxRayTracer.resolution_x camera)%Z /\
        (0 <= dy < HypoxRayTracer.resolution_y camera)%Z /\
        c = pixel_value default_tMin default_tMax default_interaction powf
                        scene camera spp dx dy).
Proof.
  intros Hw Hs.
  exists (image_writes default_tMin default_tMax default_interaction powf
                       scene camera spp).
  split; [ now apply render_wide_value | ].
  split; [ apply length_image_writes | ].
  split.
  - intros dx dy Hx Hy.
    destruct (@render_wide_each_pixel_once Num default_tMin default_tMax
                default_interaction powf scene camera spp Hs Hw)
      as (ws & Hrun & Honce & _).
    rewrite (@render_wide_value Num default_tMin default_tMax
               default_interaction powf scene camera spp Hs Hw) in Hrun.
    injection Hrun as <-. now apply Honce.
  - intros dx dy c Hin. unfold image_writes in Hin.
    apply in_flat_map in Hin. destruct Hin as (x & Hx & Hin).
    unfold column_writes in Hin. apply in_map_iff in Hin.
    destruct Hin as (y & E & Hy). injection E as <- <- <-.
    apply in_upto in Hx, Hy. now repeat split.
Qed.

Lemma render_wide_is_complete_witness :
  exists ws,
    HypoxRayTracer.render Ex.tmin Ex.tmax Ex.blank Ex.powf_unreached
                          (Ex.dark_scene Ex.hit_up) (Ex.camera 200 2) 2
    = Some ws /\
    length ws = 400%nat.
Proof.
  destruct (@render_wide_is_complete binary32 Ex.tmin Ex.tmax Ex.blank
              Ex.powf_unreached (Ex.dark_scene Ex.hit_up) (Ex.camera 200 2) 2)
    as (ws & Hrun & Hlen & _).
  - vm_compute. discriminate.
  - split; vm_compute; [ discriminate | reflexivity ].
  - exists ws. split; [ exact Hrun | exact Hlen ].
Defined.

(** X17. Read as a sequential program (the OpenMP pragmas ignored, as in a
    build without OpenMP) and with [spp] an [int], the integer arithmetic of
    [render] is undefined in exactly two cases: the image is between 1 and
    199 pixels wide (the progress test takes a remainder by zero), or it is
    at least 200 wide, has at least one row and [spp * spp] does not fit an
    [int].  In particular an image without columns is rendered, and nothing
    is written.  The progress counter, which the parallel build reads
    without synchronisation, is not part of this statement. *)
Theorem render_undefined_iff
        {Num : Scalar} (default_tMin default_tMax : F)
        (default_interaction : Interaction) (powf : F -> F -> F)
        (scene : HypoxRayTracer.Scene) (camera : HypoxRayTracer.Camera)
        (spp : Z) :
  let w := HypoxRayTracer.resolution_x camera in
  let h := HypoxRayTracer.resolution_y camera in
  let run := HypoxRayTracer.render default_tMin default_tMax
               default_interaction powf scene camera spp in
  (run = None <->
   (0 < w < 200)%Z \/
   ((200 <= w)%Z /\ (0 < h)%Z /\ ~ (- 2 ^ 31 <= spp * spp < 2 ^ 31)%Z)) /\
  ((w <= 0)%Z -> run = Some []).
Proof.
  cbv zeta.
  assert (Hempty : (HypoxRayTracer.resolution_x camera <= 0)%Z ->
                   HypoxRayTracer.render default_tMin default_tMax
                     default_interaction powf scene camera spp = Some []).
  { intros Hw. unfold HypoxRayTracer.render. now rewrite upto_empty. }
  split; [ | exact Hempty ].
  destruct (Z_le_gt_dec (HypoxRayTracer.resolution_x camera) 0) as [Hw0 | Hw0].
  { rewrite (Hempty Hw0). split; [ discriminate | ]. lia. }
  destruct (Z_lt_ge_dec (HypoxRayTracer.resolution_x camera) 200)
    as [Hn | Hwide].
  { rewrite render_narrow_undefined by lia. split; [ intros _; left; lia | reflexivity ]. }
  assert (Hq : Z.quot (HypoxRayTracer.resolution_x camera) 200 <> 0%Z).
  { assert (1 <= Z.quot (HypoxRayTracer.resolution_x camera) 200)%Z
      by (apply Z.quot_le_lower_bound; lia). lia. }
  destruct (Z_le_gt_dec (HypoxRayTracer.resolution_y camera) 0) as [Hh0 | Hh0].
  { unfold HypoxRayTracer.render. rewrite render_columns_no_rows.
    - split; [ discriminate | ]. lia.
    - intros dx _. unfold HypoxRayTracer.render_column, HypoxRayTracer.int_rem.
      destruct (Z.eqb_spec (Z.quot (HypoxRayTracer.resolution_x camera) 200) 0);
        [ contradiction | ].
      now rewrite upto_empty. }
  destruct (Z_le_dec (- 2 ^ 31) (spp * spp)) as [Hlo | Hlo];
    [ destruct (Z_lt_dec (spp * spp) (2 ^ 31)) as [Hhi | Hhi] | ].
  - rewrite (@render_wide_value Num default_tMin default_tMax
               default_interaction powf scene camera spp (conj Hlo Hhi))
      by lia.
    split; [ discriminate | ]. lia.
  - split; [ intros _; right; repeat split; lia | intros _ ].
    unfold HypoxRayTracer.render. rewrite upto_positive by lia.
    cbn [HypoxRayTracer.render_columns].
    unfold HypoxRayTracer.render_column, HypoxRayTracer.int_rem.
    destruct (Z.eqb_spec (Z.quot (HypoxRayTracer.resolution_x camera) 200) 0);
      [ contradiction | ].
    rewrite (@upto_positive (HypoxRayTracer.resolution_y camera)) by lia.
    rewrite render_rows_overflow by lia. reflexivity.
  - split; [ intros _; right; repeat split; lia | intros _ ].
    unfold HypoxRayTracer.render. rewrite upto_positive by lia.
    cbn [HypoxRayTracer.render_columns].
    unfold HypoxRayTracer.render_column, HypoxRayTracer.int_rem.
    destruct (Z.eqb_spec (Z.quot (HypoxRayTracer.resolution_x camera) 200) 0);
      [ contradiction | ].
    rewrite (@upto_positive (HypoxRayTracer.resolution_y camera)) by lia.
    rewrite render_rows_overflow by lia. reflexivity.
Qed.

Lemma render_undefined_iff_witness :
  HypoxRayTracer.render Ex.tmin Ex.tmax Ex.blank Ex.powf_unreached
                        (Ex.dark_scene Ex.hit_up) (Ex.camera 0 5) 70000
  = Some [].
Proof.
  apply (@render_undefined_iff binary32 Ex.tmin Ex.tmax Ex.blank
           Ex.powf_unreached (Ex.dark_scene Ex.hit_up) (Ex.camera 0 5) 70000).
  vm_compute. discriminate.
Defined.

(** X18. On single precision, with [spp] not zero and [spp * spp] within
    [int], a pixel none of whose samples hits the scene (or that has no
    sample at all) gets the colour (0,0,0): the background stays black. *)
Theorem background_is_black
        (default_tMin default_tMax : @F binary32)
        (default_interaction : @Interaction binary32)
        (powf : @F binary32 -> @F binary32 -> @F binary32)
        (scene : @HypoxRayTracer.Scene binary32)
        (camera : @HypoxRayTracer.Camera binary32) (spp dx dy : Z) :
  spp <> 0%Z -> (spp * spp < 2 ^ 31)%Z ->
  (forall sp,
      In sp (HypoxRayTracer.generateSuperSamplingPoint camera dx dy spp) ->
      fst (HypoxRayTracer.scene_intersect
             scene (HypoxRayTracer.generateRay camera (fst sp) (snd sp))
             default_interaction) = false) ->
  HypoxRayTracer.pixel_color default_tMin default_tMax default_interaction
                             powf scene camera spp dx dy
  = Some vzero.
Proof.
  intros Hs Hb Hmiss.
  assert (Hfit : (- 2 ^ 31 <= spp * spp < 2 ^ 31)%Z) by nia.
  rewrite (@pixel_color_value binary32 default_tMin default_tMax
             default_interaction powf scene camera spp Hfit).
  f_equal. unfold pixel_value.
  rewrite (@filter_none _ (sample_hits default_interaction scene camera))
    by exact Hmiss.
  cbn [map]. unfold vsum; cbn [fold_left].
  pose proof (square_converts_positive Hs Hb) as Hp.
  unfold vdivs, vzero; cbn [vx vy vz]. rewrite b32_i0.
  cbn [div of_int binary32]. now rewrite !(@b32_zero_div _ Hp).
Qed.

Lemma background_is_black_witness :
  HypoxRayTracer.pixel_color
    Ex.tmin Ex.tmax Ex.blank Ex.powf_unreached
    (HypoxRayTracer.mkScene (fun _ i => (false, i)) (fun _ => false)
                            Ex.o3 Ex.o3 [])
    (Ex.camera 200 2) 2 0 0
  = Some vzero.
Proof.
  apply (@background_is_black Ex.tmin Ex.tmax Ex.blank Ex.powf_unreached
           (HypoxRayTracer.mkScene (fun _ i => (false, i)) (fun _ => false)
                                   Ex.o3 Ex.o3 [])
           (Ex.camera 200 2) 2 0 0).
  - discriminate.
  - reflexivity.
  - intros sp _. reflexivity.
Defined.

(** X19. The columns may be rendered in any order.  On an image at least 200
    pixels wide, with [spp * spp] within [int], running the column loop over
    any arrangement of the columns 0, ..., width - 1 performs the same
    [setPixel] calls as the run in increasing order, in another order: every
    pixel is still written exactly once, with the same value. *)
Theorem columns_in_any_order
        {Num : Scalar} (default_tMin default_tMax : F)
        (default_interaction : Interaction) (powf : F -> F -> F)
        (scene : HypoxRayTracer.Scene) (camera : HypoxRayTracer.Camera)
        (spp : Z) (cols : list Z) :
  (200 <= HypoxRayTracer.resolution_x camera)%Z ->
  (- 2 ^ 31 <= spp * spp < 2 ^ 31)%Z ->
  Permutation cols (HypoxRayTracer.upto (HypoxRayTracer.resolution_x camera)) ->
  exists ws ws0,
    HypoxRayTracer.render_columns default_tMin default_tMax
      default_interaction powf scene camera spp cols = Some ws /\
    HypoxRayTracer.render default_tMin default_tMax default_interaction powf
                          scene camera spp = Some ws0 /\
    Permutation ws ws0 /\
    (forall dx dy,
        (0 <= dx < HypoxRayTracer.resolution_x camera)%Z ->
        (0 <= dy < HypoxRayTracer.resolution_y camera)%Z ->
        writes_to dx dy ws = 1%nat).
Proof.
  intros Hw Hs HP.
  destruct (@render_wide_each_pixel_once Num default_tMin default_tMax
              default_interaction powf scene camera spp Hs Hw)
    as (ws0 & Hrun & Honce & _).
  pose proof Hrun as Hrun'.
  rewrite (@render_wide_value Num default_tMin default_tMax
             default_interaction powf scene camera spp Hs Hw) in Hrun'.
  injection Hrun' as <-.
  eexists. eexists. split; [ | split; [ exact Hrun | ] ].
  - apply (@render_columns_value Num default_tMin default_tMax
             default_interaction powf scene camera spp Hs Hw).
  - assert (HQ : Permutation
                   (flat_map (column_writes default_tMin default_tMax
                                default_interaction powf scene camera spp)
                             cols)
                   (image_writes default_tMin default_tMax
                      default_interaction powf scene camera spp)).
    { unfold image_writes. now apply Permutation_flat_map. }
    split; [ exact HQ | ].
    intros dx dy Hx Hy. destruct (Honce dx dy Hx Hy) as [H1 _].
    rewrite <- H1. unfold writes_to. apply Permutation_length.
    now apply Permutation_filter_same.
Qed.

Lemma columns_in_any_order_witness :
  exists ws ws0,
    HypoxRayTracer.render_columns Ex.tmin Ex.tmax Ex.blank Ex.powf_unreached
      (Ex.dark_scene Ex.hit_up) (Ex.camera 200 2) 2
      (rev (HypoxRayTracer.upto 200)) = Some ws /\
    HypoxRayTracer.render Ex.tmin Ex.tmax Ex.blank Ex.powf_unreached
                          (Ex.dark_scene Ex.hit_up) (Ex.camera 200 2) 2
    = Some ws0 /\
    Permutation ws ws0.
Proof.
  destruct (@columns_in_any_order binary32 Ex.tmin Ex.tmax Ex.blank
              Ex.powf_unreached (Ex.dark_scene Ex.hit_up) (Ex.camera 200 2) 2
              (rev (HypoxRayTracer.upto 200)))
    as (ws & ws0 & H1 & H2 & H3 & _).
  - vm_compute. discriminate.
  - split; vm_compute; [ discriminate | reflexivity ].
  - symmetry. apply Permutation_rev.
  - exists ws, ws0. now repeat split.
Defined.

(** X20. In exact arithmetic, with one sample per pixel ([spp = 1]) that
    hits the scene, the pixel gets the radiance of that sample unscaled. *)
Theorem single_sample_pixel
        (default_tMin default_tMax : R)
        (default_interaction : @Interaction exact) (powf : R -> R -> R)
        (scene : @HypoxRayTracer.Scene exact)
        (camera : @HypoxRayTracer.Camera exact) (dx dy : Z)
        (sp : @F exact * @F exact) (hit : @Interaction exact) :
  HypoxRayTracer.generateSuperSamplingPoint camera dx dy 1 = [sp] ->
  HypoxRayTracer.scene_intersect
    scene (HypoxRayTracer.generateRay camera (fst sp) (snd sp))
    default_interaction = (true, hit) ->
  @HypoxRayTracer.pixel_color exact default_tMin default_tMax
    default_interaction powf scene camera 1 dx dy
  = Some (@HypoxRayTracer.evalRadiance exact default_tMin default_tMax powf
            scene (HypoxRayTracer.generateRay camera (fst sp) (snd sp)) hit).
Proof.
  intros Hsp Hhit.
  unfold HypoxRayTracer.pixel_color. rewrite Hsp. cbn [fold_left].
  rewrite sample_step_cases.
  unfold sample_hits, sample_radiance, sample_ray. rewrite Hhit.
  cbn [fst snd].
  change (HypoxRayTracer.int_mul 1 1) with (Some 1%Z). cbv iota beta.
  f_equal. change (@of_int exact 1%Z) with 1%R.
  apply vec3_ext; unfold vdivs, vadd, vzero; cbn [vx vy vz];
    real_ops; lra.
Qed.

Lemma single_sample_pixel_witness :
  @HypoxRayTracer.pixel_color exact 0%R 1%R ExR.blank Rpower ExS.open_scene
    ExS.camera1 1 0 0
  = Some (@HypoxRayTracer.evalRadiance exact 0%R 1%R Rpower ExS.open_scene
            ExR.ray_down ExS.hit_up).
Proof.
  apply (@single_sample_pixel 0%R 1%R ExR.blank Rpower ExS.open_scene
           ExS.camera1 0 0 ExS.sample0 ExS.hit_up); reflexivity.
Defined.
